(** * A shallow embedding of the polynomial decision diagram manager
      (dd_pdd.cpp, namespace dd, class pdd_manager).

    Node ids, levels, variables and reference counts are natural numbers;
    vectors are lists indexed from 0 whose last element is [back()];
    rationals are reduced fractions over [Q].  Stateful member functions are
    written in a state-and-error monad over the [manager] record.  Debug
    assertions (SASSERT) are compiled out, as in a release build. *)

From Stdlib Require Import ZArith QArith Qreduction Lia Bool List.
From stdpp Require Import base list.
Import ListNotations.

Local Open Scope nat_scope.

(** ** Rationals (the arithmetic of [rational] is outside the repository
       source; values are kept in lowest terms, as mpq does) *)

Module Rat.

Definition rational := Q.

Definition zero : rational := 0%Q.
Definition one : rational := 1%Q.
Definition of_Z (z : Z) : rational := inject_Z z.

Definition add (a b : rational) : rational := Qred (a + b)%Q.
Definition mul (a b : rational) : rational := Qred (a * b)%Q.
Definition neg (a : rational) : rational := Qred (- a)%Q.
Definition div (a b : rational) : rational := Qred (a / b)%Q.

(** Equality is equality of the reduced numerators and denominators. *)
Definition eqb (a b : rational) : bool :=
  Z.eqb (Qnum a) (Qnum b) && Pos.eqb (Qden a) (Qden b).
Definition is_zero (a : rational) : bool := Z.eqb (Qnum a) 0.
Definition is_one (a : rational) : bool := eqb a 1%Q.
Definition ltb (a b : rational) : bool := negb (Qle_bool b a).
Definition is_int (a : rational) : bool := Pos.eqb (Qden (Qred a)) 1%positive.

(** [mod(r, 2)] and [gcd(a, b)] act on the numerators of integral arguments. *)
Definition mod2 (a : rational) : rational := inject_Z (Qnum (Qred a) mod 2).
Definition gcd (a b : rational) : rational :=
  inject_Z (Z.gcd (Qnum (Qred a)) (Qnum (Qred b))).

End Rat.

Abbreviation rational := Rat.rational.

(** ** Nodes *)

Abbreviation PDD := nat.

Definition zero_pdd : PDD := 0.
Definition one_pdd : PDD := 1.

(** Modelled from the spec: the constants of the absent header dd_pdd.h.
    The operator tags are reserved ids following 0 and 1, [pdd_no_op] closes
    the enumeration, and [max_rc] is the saturated reference count that pins
    a node. *)
Inductive pdd_op := pdd_add_op | pdd_minus_op | pdd_mul_op | pdd_reduce_op.

Definition op_id (o : pdd_op) : nat :=
  match o with
  | pdd_add_op => 2 | pdd_minus_op => 3 | pdd_mul_op => 4 | pdd_reduce_op => 5
  end.
Definition pdd_no_op : nat := 6.
Definition max_rc : nat := 1023.

Definition pdd_op_eqb (a b : pdd_op) : bool := op_id a =? op_id b.

Record pdd_node := mk_node {
  m_refcount : nat;
  m_level : nat;
  m_lo : PDD;
  m_hi : PDD;
  m_index : nat
}.

(** The three constructors of [pdd_node]. *)
Definition pdd_node3 (level : nat) (lo hi : PDD) : pdd_node := mk_node 0 level lo hi 0.
Definition pdd_node1 (value : nat) : pdd_node := mk_node 0 0 value 0 0.
Definition pdd_node0 : pdd_node := mk_node 0 0 0 0 0.

Definition is_internal (n : pdd_node) : bool := (m_lo n =? 0) && (m_hi n =? 0).
Definition set_internal (n : pdd_node) : pdd_node :=
  mk_node (m_refcount n) (m_level n) 0 0 (m_index n).
Definition set_refcount (rc : nat) (n : pdd_node) : pdd_node :=
  mk_node rc (m_level n) (m_lo n) (m_hi n) (m_index n).
Definition set_index (i : nat) (n : pdd_node) : pdd_node :=
  mk_node (m_refcount n) (m_level n) (m_lo n) (m_hi n) i.

(** Equality of the node table: level, lo and hi. *)
Definition same_content (a b : pdd_node) : bool :=
  (m_level a =? m_level b) && (m_lo a =? m_lo b) && (m_hi a =? m_hi b).

(** ** The manager *)

Record const_info := mk_info { m_value_index : nat; m_node_index : PDD }.

Record op_entry := mk_entry {
  m_pdd1 : PDD; m_pdd2 : PDD; m_op : pdd_op;
  m_result : option PDD   (* [None] is the pending sentinel null_pdd *)
}.

Record manager := mk_manager {
  m_nodes : list pdd_node;
  m_node_table : list pdd_node;
  m_values : list rational;
  m_free_values : list nat;
  m_mpq_table : list (rational * const_info);
  m_freeze_value : rational;
  m_free_nodes : list PDD;
  m_op_cache : list op_entry;
  m_pdd_stack : list PDD;
  m_var2pdd : list PDD;
  m_var2level : list nat;
  m_level2var : list nat;
  m_max_num_pdd_nodes : N;
  m_disable_gc : bool;
  m_is_new_node : bool;
  m_mod2_semantics : bool
}.

Definition with_nodes (x : list pdd_node) (m : manager) : manager :=
  mk_manager x (m_node_table m) (m_values m) (m_free_values m) (m_mpq_table m)
    (m_freeze_value m) (m_free_nodes m) (m_op_cache m) (m_pdd_stack m) (m_var2pdd m)
    (m_var2level m) (m_level2var m) (m_max_num_pdd_nodes m) (m_disable_gc m)
    (m_is_new_node m) (m_mod2_semantics m).
Definition with_node_table (x : list pdd_node) (m : manager) : manager :=
  mk_manager (m_nodes m) x (m_values m) (m_free_values m) (m_mpq_table m)
    (m_freeze_value m) (m_free_nodes m) (m_op_cache m) (m_pdd_stack m) (m_var2pdd m)
    (m_var2level m) (m_level2var m) (m_max_num_pdd_nodes m) (m_disable_gc m)
    (m_is_new_node m) (m_mod2_semantics m).
Definition with_values (x : list rational) (m : manager) : manager :=
  mk_manager (m_nodes m) (m_node_table m) x (m_free_values m) (m_mpq_table m)
    (m_freeze_value m) (m_free_nodes m) (m_op_cache m) (m_pdd_stack m) (m_var2pdd m)
    (m_var2level m) (m_level2var m) (m_max_num_pdd_nodes m) (m_disable_gc m)
    (m_is_new_node m) (m_mod2_semantics m).
Definition with_free_values (x : list nat) (m : manager) : manager :=
  mk_manager (m_nodes m) (m_node_table m) (m_values m) x (m_mpq_table m)
    (m_freeze_value m) (m_free_nodes m) (m_op_cache m) (m_pdd_stack m) (m_var2pdd m)
    (m_var2level m) (m_level2var m) (m_max_num_pdd_nodes m) (m_disable_gc m)
    (m_is_new_node m) (m_mod2_semantics m).
Definition with_mpq_table (x : list (rational * const_info)) (m : manager) : manager :=
  mk_manager (m_nodes m) (m_node_table m) (m_values m) (m_free_values m) x
    (m_freeze_value m) (m_free_nodes m) (m_op_cache m) (m_pdd_stack m) (m_var2pdd m)
    (m_var2level m) (m_level2var m) (m_max_num_pdd_nodes m) (m_disable_gc m)
    (m_is_new_node m) (m_mod2_semantics m).
Definition with_freeze_value (x : rational) (m : manager) : manager :=
  mk_manager (m_nodes m) (m_node_table m) (m_values m) (m_free_values m) (m_mpq_table m)
    x (m_free_nodes m) (m_op_cache m) (m_pdd_stack m) (m_var2pdd m)
    (m_var2level m) (m_level2var m) (m_max_num_pdd_nodes m) (m_disable_gc m)
    (m_is_new_node m) (m_mod2_semantics m).
Definition with_free_nodes (x : list PDD) (m : manager) : manager :=
  mk_manager (m_nodes m) (m_node_table m) (m_values m) (m_free_values m) (m_mpq_table m)
    (m_freeze_value m) x (m_op_cache m) (m_pdd_stack m) (m_var2pdd m)
    (m_var2level m) (m_level2var m) (m_max_num_pdd_nodes m) (m_disable_gc m)
    (m_is_new_node m) (m_mod2_semantics m).
Definition with_op_cache (x : list op_entry) (m : manager) : manager :=
  mk_manager (m_nodes m) (m_node_table m) (m_values m) (m_free_values m) (m_mpq_table m)
    (m_freeze_value m) (m_free_nodes m) x (m_pdd_stack m) (m_var2pdd m)
    (m_var2level m) (m_level2var m) (m_max_num_pdd_nodes m) (m_disable_gc m)
    (m_is_new_node m) (m_mod2_semantics m).
Definition with_pdd_stack (x : list PDD) (m : manager) : manager :=
  mk_manager (m_nodes m) (m_node_table m) (m_values m) (m_free_values m) (m_mpq_table m)
    (m_freeze_value m) (m_free_nodes m) (m_op_cache m) x (m_var2pdd m)
    (m_var2level m) (m_level2var m) (m_max_num_pdd_nodes m) (m_disable_gc m)
    (m_is_new_node m) (m_mod2_semantics m).
Definition with_vars (v2p : list PDD) (v2l l2v : list nat) (m : manager) : manager :=
  mk_manager (m_nodes m) (m_node_table m) (m_values m) (m_free_values m) (m_mpq_table m)
    (m_freeze_value m) (m_free_nodes m) (m_op_cache m) (m_pdd_stack m) v2p
    v2l l2v (m_max_num_pdd_nodes m) (m_disable_gc m)
    (m_is_new_node m) (m_mod2_semantics m).
Definition with_max_num_nodes (x : N) (m : manager) : manager :=
  mk_manager (m_nodes m) (m_node_table m) (m_values m) (m_free_values m) (m_mpq_table m)
    (m_freeze_value m) (m_free_nodes m) (m_op_cache m) (m_pdd_stack m) (m_var2pdd m)
    (m_var2level m) (m_level2var m) x (m_disable_gc m)
    (m_is_new_node m) (m_mod2_semantics m).
Definition with_disable_gc (x : bool) (m : manager) : manager :=
  mk_manager (m_nodes m) (m_node_table m) (m_values m) (m_free_values m) (m_mpq_table m)
    (m_freeze_value m) (m_free_nodes m) (m_op_cache m) (m_pdd_stack m) (m_var2pdd m)
    (m_var2level m) (m_level2var m) (m_max_num_pdd_nodes m) x
    (m_is_new_node m) (m_mod2_semantics m).
Definition with_is_new_node (x : bool) (m : manager) : manager :=
  mk_manager (m_nodes m) (m_node_table m) (m_values m) (m_free_values m) (m_mpq_table m)
    (m_freeze_value m) (m_free_nodes m) (m_op_cache m) (m_pdd_stack m) (m_var2pdd m)
    (m_var2level m) (m_level2var m) (m_max_num_pdd_nodes m) (m_disable_gc m)
    x (m_mod2_semantics m).
Definition set_mod2_semantics (x : bool) (m : manager) : manager :=
  mk_manager (m_nodes m) (m_node_table m) (m_values m) (m_free_values m) (m_mpq_table m)
    (m_freeze_value m) (m_free_nodes m) (m_op_cache m) (m_pdd_stack m) (m_var2pdd m)
    (m_var2level m) (m_level2var m) (m_max_num_pdd_nodes m) (m_disable_gc m)
    (m_is_new_node m) x.

(** ** Accessors.  Modelled from the spec: the inline accessors of the absent
    header.  A value node is one whose hi is 0 (invariants I1 and I3); its lo
    is the index of its rational in [m_values]; [var] goes through
    [m_level2var].  An index outside a vector reads a default element. *)

Definition node (m : manager) (p : PDD) : pdd_node := default pdd_node0 (m_nodes m !! p).
Definition lo (m : manager) (p : PDD) : PDD := m_lo (node m p).
Definition hi (m : manager) (p : PDD) : PDD := m_hi (node m p).
Definition level (m : manager) (p : PDD) : nat := m_level (node m p).
Definition is_zero (p : PDD) : bool := p =? zero_pdd.
Definition is_one (p : PDD) : bool := p =? one_pdd.
Definition is_val (m : manager) (p : PDD) : bool := hi m p =? 0.
Definition val (m : manager) (p : PDD) : rational := default Rat.zero (m_values m !! lo m p).
Definition var (m : manager) (p : PDD) : nat := default 0 (m_level2var m !! level m p).

(** ** The state-and-error monad.  [mem_out] is the only exception the source
    throws; [undefined] marks a vector index outside its bounds and a pending
    cache entry returned as a result; [out_of_fuel] belongs to the model. *)

Inductive error := mem_out | undefined | out_of_fuel.

Inductive result (A : Type) :=
| Ok (a : A) (m : manager)
| Err (e : error) (m : manager).
Arguments Ok {A} a m.
Arguments Err {A} e m.

Definition M (A : Type) := manager -> result A.

Definition ret {A} (a : A) : M A := fun m => Ok a m.
Definition bind {A B} (c : M A) (f : A -> M B) : M B :=
  fun m => match c m with
           | Ok a m' => f a m'
           | Err e m' => Err e m'
           end.
Definition throw {A} (e : error) : M A := fun m => Err e m.
Definition get : M manager := fun m => Ok m m.
Definition modify (f : manager -> manager) : M unit := fun m => Ok tt (f m).

Notation "'let*' x ':=' c 'in' k" := (bind c (fun x => k))
  (at level 10, x name, c at level 100, k at level 200).
Notation "'do*' c 'in' k" := (bind c (fun _ => k))
  (at level 10, c at level 100, k at level 200).

Definition state_of {A} (r : result A) : manager :=
  match r with Ok _ m => m | Err _ m => m end.

(** ** Evaluation stack *)

Definition push (b : PDD) : M unit :=
  modify (fun m => with_pdd_stack (m_pdd_stack m ++ [b]) m).

Definition pop (num_scopes : nat) : M unit :=
  modify (fun m => with_pdd_stack (take (length (m_pdd_stack m) - num_scopes) (m_pdd_stack m)) m).

(** [m_pdd_stack[size - index]]; the subtraction is unsigned, so an index
    above the size leaves the vector. *)
Definition read (index : nat) : M PDD := fun m =>
  let sz := length (m_pdd_stack m) in
  if index <=? sz then
    match m_pdd_stack m !! (sz - index) with
    | Some b => Ok b m
    | None => Err undefined m
    end
  else Err undefined m.

(** ** Node table, value table and operation cache (hash tables keyed by
    content) *)

Fixpoint table_find (n : pdd_node) (t : list pdd_node) : option pdd_node :=
  match t with
  | [] => None
  | e :: t' => if same_content n e then Some e else table_find n t'
  end.

Fixpoint table_insert (n : pdd_node) (t : list pdd_node) : list pdd_node :=
  match t with
  | [] => [n]
  | e :: t' => if same_content n e then n :: t' else e :: table_insert n t'
  end.

Definition insert_if_not_there2 (n : pdd_node) (t : list pdd_node)
  : pdd_node * list pdd_node :=
  match table_find n t with
  | Some e => (e, t)
  | None => (n, table_insert n t)
  end.

Fixpoint mpq_find (r : rational) (t : list (rational * const_info)) : option const_info :=
  match t with
  | [] => None
  | (k, i) :: t' => if Rat.eqb r k then Some i else mpq_find r t'
  end.

Definition mpq_remove (r : rational) (t : list (rational * const_info)) :=
  filter (fun e => negb (Rat.eqb r (fst e))) t.

Definition mpq_insert (r : rational) (i : const_info) (t : list (rational * const_info)) :=
  (r, i) :: mpq_remove r t.

Definition same_key (p q : PDD) (op : pdd_op) (e : op_entry) : bool :=
  (m_pdd1 e =? p) && (m_pdd2 e =? q) && pdd_op_eqb (m_op e) op.

Fixpoint cache_find (p q : PDD) (op : pdd_op) (c : list op_entry) : option op_entry :=
  match c with
  | [] => None
  | e :: c' => if same_key p q op e then Some e else cache_find p q op c'
  end.

Fixpoint cache_set_result (p q : PDD) (op : pdd_op) (r : PDD) (c : list op_entry)
  : list op_entry :=
  match c with
  | [] => []
  | e :: c' => if same_key p q op e then mk_entry p q op (Some r) :: c'
               else e :: cache_set_result p q op r c'
  end.

(** ** alloc_free_nodes *)

Fixpoint alloc_free_nodes_loop (n : nat) (nodes : list pdd_node) (free : list PDD)
  : list pdd_node * list PDD :=
  match n with
  | 0 => (nodes, free)
  | S n' =>
      alloc_free_nodes_loop n'
        (nodes ++ [set_index (length nodes) pdd_node0])
        (free ++ [length nodes])
  end.

Definition alloc_free_nodes (n : nat) (m : manager) : manager :=
  let '(nodes, free) := alloc_free_nodes_loop n (m_nodes m) (m_free_nodes m) in
  with_free_nodes (rev free) (with_nodes nodes m).

(** ** Garbage collection *)

Definition reach (reachable : list bool) (i : PDD) : bool :=
  default false (reachable !! i).

(** Ids 2 .. size-1 in the order of the loops [for (i = size; i-- > 2; )]. *)
Definition ids_down (m : manager) : list PDD := rev (seq 2 (length (m_nodes m) - 2)).

Definition rc_roots (m : manager) : list PDD :=
  filter (fun i => 0 <? m_refcount (node m i)) (ids_down m).

Definition mark_roots (roots : list PDD) (reachable : list bool) : list bool :=
  fold_left (fun r i => <[i := true]> r) roots reachable.

(** The closure loop over [m_todo]; the work list is held back-first, so its
    head is [m_todo.back()]. *)
Fixpoint mark_loop (fuel : nat) (m : manager) (todo : list PDD) (reachable : list bool)
  : list bool :=
  match fuel, todo with
  | S fuel', p :: todo1 =>
      if is_val m p then mark_loop fuel' m todo1 reachable
      else
        let '(todo2, r2) :=
          if negb (reach reachable (lo m p))
          then (lo m p :: todo1, <[lo m p := true]> reachable)
          else (todo1, reachable) in
        let '(todo3, r3) :=
          if negb (reach r2 (hi m p))
          then (hi m p :: todo2, <[hi m p := true]> r2)
          else (todo2, r2) in
        mark_loop fuel' m todo3 r3
  | _, _ => reachable
  end.

Definition gc_roots (m : manager) : list PDD := rev (m_pdd_stack m) ++ rc_roots m.

Definition gc_reachable (m : manager) : list bool :=
  let roots := gc_roots m in
  mark_loop (3 * (length roots + length (m_nodes m))) m (rev roots)
    (mark_roots roots (replicate (length (m_nodes m)) false)).

(** Modelled from the spec: the look-up [m_mpq_table.find(r)] of the absent
    hash table; a rational without an entry yields the default [const_info]. *)
Definition mpq_find_info (r : rational) (t : list (rational * const_info)) : const_info :=
  default (mk_info 0 0) (mpq_find r t).

Definition free_slot (i : PDD) (m : manager) : manager :=
  with_free_nodes (m_free_nodes m ++ [i])
    (with_nodes (<[i := set_internal (node m i)]> (m_nodes m)) m).

Definition sweep_step (reachable : list bool) (m : manager) (i : PDD) : manager :=
  if reach reachable i then m
  else if is_val m i then
    if Rat.eqb (m_freeze_value m) (val m i) then m
    else
      free_slot i
        (with_mpq_table (mpq_remove (val m i) (m_mpq_table m))
           (with_free_values
              (m_free_values m ++ [m_value_index (mpq_find_info (val m i) (m_mpq_table m))])
              m))
  else free_slot i m.

Fixpoint insert_sorted (x : nat) (l : list nat) : list nat :=
  match l with
  | [] => [x]
  | y :: l' => if x <=? y then x :: l else y :: insert_sorted x l'
  end.

Definition sort (l : list nat) : list nat := foldr insert_sorted [] l.

Definition is_pending (e : op_entry) : bool :=
  match m_result e with None => true | Some _ => false end.

Definition rebuild_table (reachable : list bool) (m : manager) : list pdd_node :=
  fold_left (fun t i => if reach reachable i then table_insert (node m i) t else t)
    (ids_down m) [].

Definition gc (m : manager) : manager :=
  let m0 := with_free_nodes [] m in
  let reachable := gc_reachable m0 in
  let m1 := fold_left (sweep_step reachable) (ids_down m0) m0 in
  let m2 := with_free_nodes (rev (sort (m_free_nodes m1))) m1 in
  let m3 := with_op_cache (filter is_pending (m_op_cache m2)) m2 in
  with_node_table (rebuild_table reachable m3) m3.

Definition try_gc (m : manager) : manager := with_op_cache [] (gc m).

(** ** Node creation *)

Definition insert_node (n : pdd_node) : M PDD := fun m =>
  let '(e, t) := insert_if_not_there2 n (m_node_table m) in
  if negb (m_index e =? 0) then Ok (m_index e) (with_node_table t m)
  else
    let e1 := set_refcount 0 e in
    let m1 := with_node_table (table_insert e1 t) m in
    let do_gc := match m_free_nodes m1 with [] => true | _ => false end in
    let '(e2, m2) :=
      if do_gc && negb (m_disable_gc m1) then
        let mg := gc m1 in
        let '(e', t') := insert_if_not_there2 n (m_node_table mg) in
        let e'' := set_refcount 0 e' in
        (e'', with_node_table (table_insert e'' t') mg)
      else (e1, m1) in
    if do_gc && (m_max_num_pdd_nodes m2 <? N.of_nat (length (m_nodes m2)))%N
    then Err mem_out m2
    else
      let m3 := if do_gc then alloc_free_nodes (length (m_nodes m2) / 2) m2 else m2 in
      match last (m_free_nodes m3) with
      | None => Err undefined m3
      | Some result =>
          let e3 := set_index result e2 in
          Ok result
            (with_is_new_node true
               (with_nodes (<[result := e3]> (m_nodes m3))
                  (with_node_table (table_insert e3 (m_node_table m3))
                     (with_free_nodes (removelast (m_free_nodes m3)) m3))))
      end.

Definition make_node (lvl : nat) (l h : PDD) : M PDD :=
  do* modify (with_is_new_node false) in
  if is_zero h then ret l else insert_node (pdd_node3 lvl l h).

Definition init_value (r : rational) : M const_info := fun m =>
  let '(vi, m1) :=
    match last (m_free_values m) with
    | None => (length (m_values m), with_values (m_values m ++ [r]) m)
    | Some v => (v, with_values (<[v := r]> (m_values m))
                      (with_free_values (removelast (m_free_values m)) m))
    end in
  let m2 := with_freeze_value r m1 in
  match insert_node (pdd_node1 vi) m2 with
  | Ok idx m3 =>
      let info := mk_info vi idx in
      Ok info (with_mpq_table (mpq_insert r info (m_mpq_table m3)) m3)
  | Err e m3 => Err e m3
  end.

(** [imk_val] calls itself once, in mod-2 mode, on [mod(r, 2)]. *)
Fixpoint imk_val_rec (depth : nat) (r : rational) : M PDD := fun m =>
  if Rat.is_zero r then Ok zero_pdd m
  else if Rat.is_one r then Ok one_pdd m
  else if m_mod2_semantics m then
    match depth with
    | 0 => Err out_of_fuel m
    | S d => imk_val_rec d (Rat.mod2 r) m
    end
  else
    match mpq_find r (m_mpq_table m) with
    | Some info => Ok (m_node_index info) m
    | None => (let* info := init_value r in ret (m_node_index info)) m
    end.

Definition imk_val (r : rational) : M PDD := imk_val_rec 1 r.

(** ** Variables *)

Definition pin (p : PDD) : M unit :=
  modify (fun m => with_nodes (<[p := set_refcount max_rc (node m p)]> (m_nodes m)) m).

Fixpoint reserve_var_loop (k : nat) (i : nat) : M unit := fun m =>
  match k with
  | 0 => Ok tt m
  | S k' =>
      if length (m_var2level m) <=? i then
        let v := length (m_var2level m) in
        (let* p := make_node v zero_pdd one_pdd in
         do* modify (fun m => with_vars (m_var2pdd m ++ [p]) (m_var2level m) (m_level2var m) m) in
         do* (fun m => pin (default 0 (m_var2pdd m !! v)) m) in
         do* modify (fun m => with_vars (m_var2pdd m) (m_var2level m ++ [v])
                                (m_level2var m ++ [v]) m) in
         reserve_var_loop k' i) m
      else Ok tt m
  end.

Definition reserve_var (i : nat) : M unit := fun m =>
  reserve_var_loop (S i - length (m_var2level m)) i m.

(** One turn of the loop of [set_level2var], on the pair
    [(m_var2level, m_level2var)]. *)
Definition set_level2var_step (level2var : list nat) (maps : list nat * list nat) (i : nat)
  : list nat * list nat :=
  let v := default 0 (level2var !! i) in
  (<[v := i]> (fst maps), <[i := v]> (snd maps)).

Definition set_level2var (level2var : list nat) : M unit :=
  modify (fun m =>
    let maps :=
      fold_left (set_level2var_step level2var) (seq 0 (length level2var))
        (m_var2level m, m_level2var m) in
    with_vars (m_var2pdd m) (fst maps) (snd maps) m).

(** ** Construction *)

Definition empty_manager : manager :=
  mk_manager [] [] [] [] [] Rat.zero [] [] [] [] [] [] 0%N false false false.

Definition add_dummy : M unit :=
  modify (fun m =>
    with_nodes (m_nodes m ++ [mk_node max_rc 0 0 0 (length (m_nodes m))]) m).

Fixpoint repeat_M (k : nat) (c : M unit) : M unit :=
  match k with
  | 0 => ret tt
  | S k' => do* c in repeat_M k' c
  end.

Fixpoint reserve_vars (k : nat) (i : nat) : M unit :=
  match k with
  | 0 => ret tt
  | S k' => do* reserve_var i in reserve_vars k' (S i)
  end.

(** The constructor, with the number of preallocated slots (1024 in the
    source) as a parameter. *)
Definition pdd_manager_with (prealloc : nat) (num_vars : nat) : M unit :=
  do* modify (with_max_num_nodes (2 ^ 24)%N) in
  do* modify (alloc_free_nodes (prealloc + num_vars)) in
  do* modify (with_disable_gc false) in
  do* modify (with_is_new_node false) in
  do* modify (set_mod2_semantics false) in
  let* _i0 := init_value Rat.zero in
  let* _i1 := init_value Rat.one in
  do* pin 0 in
  do* pin 1 in
  do* repeat_M (pdd_no_op + 1) add_dummy in
  reserve_vars num_vars 0.

Definition pdd_manager (num_vars : nat) : M unit := pdd_manager_with 1024 num_vars.


(** ** Reference counts.  Modelled from the spec: [inc_ref] and [dec_ref] of
    the absent header; counts saturate at [max_rc] and never go below zero. *)

Definition inc_ref (p : PDD) : M unit :=
  modify (fun m =>
    if m_refcount (node m p) =? max_rc then m
    else with_nodes (<[p := set_refcount (S (m_refcount (node m p))) (node m p)]> (m_nodes m)) m).

Definition dec_ref (p : PDD) : M unit :=
  modify (fun m =>
    if m_refcount (node m p) =? max_rc then m
    else with_nodes (<[p := set_refcount (pred (m_refcount (node m p))) (node m p)]> (m_nodes m)) m).

(** A handle [pdd(root, this)] is its root; building one counts a reference. *)
Definition mk_pdd (root : PDD) : M PDD := do* inc_ref root in ret root.

(** ** Read-only walks *)

Definition gets {A} (f : manager -> A) : M A := fun m => Ok (f m) m.

Fixpoint lm_divides (fuel : nat) (m : manager) (p q : PDD) : option bool :=
  match fuel with
  | 0 => None
  | S fuel' =>
      if is_val m p then Some true
      else if is_val m q then Some false
      else if level m q <? level m p then Some false
      else if level m p =? level m q then lm_divides fuel' m (hi m p) (hi m q)
      else lm_divides fuel' m p (hi m q)
  end.

Definition lift_option {A} (o : option A) : M A := fun m =>
  match o with Some a => Ok a m | None => Err out_of_fuel m end.

(** ** The operation cache: [pop_entry], [insert_if_not_there] and
    [check_result] taken together.  [Some r] is a hit; [None] means that a
    pending entry for the key has been reserved. *)
Definition cache_probe (p q : PDD) (op : pdd_op) : M (option PDD) := fun m =>
  match cache_find p q op (m_op_cache m) with
  | Some e2 =>
      match m_result e2 with
      | Some r => Ok (Some r) m
      | None => Err undefined m
      end
  | None => Ok None (with_op_cache (mk_entry p q op None :: m_op_cache m) m)
  end.

Definition cache_store (p q : PDD) (op : pdd_op) (r : PDD) : M unit :=
  modify (fun m => with_op_cache (cache_set_result p q op r (m_op_cache m)) m).

(** ** The retry loop shared by [apply] and [minus] *)

Fixpoint retry_loop (iterations : nat) (first : bool) (worker : M PDD) : M PDD := fun m =>
  match iterations with
  | 0 => Err out_of_fuel m
  | S k =>
      match worker m with
      | Ok r m' => Ok r m'
      | Err mem_out m' =>
          let m'' := try_gc m' in
          if negb first then Err mem_out m''
          else retry_loop k false worker m''
      | Err e m' => Err e m'
      end
  end.

(** [scoped_push] records the stack size and restores it when the scope is
    left, by return or by exception. *)
Definition scoped_push {A} (c : M A) : M A := fun m =>
  let sz := length (m_pdd_stack m) in
  match c m with
  | Ok a m' => Ok a (with_pdd_stack (take sz (m_pdd_stack m')) m')
  | Err e m' => Err e (with_pdd_stack (take sz (m_pdd_stack m')) m')
  end.

Definition apply_with (worker : M PDD) : M PDD := scoped_push (retry_loop 2 true worker).

(** ** The arithmetic evaluator *)

Inductive pre_result :=
| pre_return (c : M PDD)
| pre_continue (p q : PDD).

Definition swap_if (b : bool) (pq : PDD * PDD) : PDD * PDD :=
  if b then (snd pq, fst pq) else pq.

(** The first [switch] of [apply_rec]: short-circuits and argument order. *)
Definition apply_pre (m : manager) (p q : PDD) (op : pdd_op) : pre_result :=
  match op with
  | pdd_add_op =>
      if is_zero p then pre_return (ret q)
      else if is_zero q then pre_return (ret p)
      else if is_val m p && is_val m q then pre_return (imk_val (Rat.add (val m p) (val m q)))
      else
        let pq := swap_if (negb (is_val m p) && (level m p <? level m q)) (p, q) in
        let pq := swap_if (is_val m (fst pq)) pq in
        pre_continue (fst pq) (snd pq)
  | pdd_mul_op =>
      if is_zero p || is_zero q then pre_return (ret zero_pdd)
      else if is_one p then pre_return (ret q)
      else if is_one q then pre_return (ret p)
      else if is_val m p && is_val m q then pre_return (imk_val (Rat.mul (val m p) (val m q)))
      else
        let pq := swap_if (negb (is_val m p) && (level m p <? level m q)) (p, q) in
        let pq := swap_if (is_val m (fst pq)) pq in
        pre_continue (fst pq) (snd pq)
  | pdd_reduce_op =>
      if is_zero q then pre_return (ret p)
      else if is_val m p then pre_return (ret p)
      else if level m p <? level m q then pre_return (ret p)
      else pre_continue p q
  | pdd_minus_op => pre_return (throw undefined)
  end.

Definition finish (p q : PDD) (op : pdd_op) (npop : nat) (r : PDD) : M PDD :=
  do* pop npop in
  do* cache_store p q op r in
  ret r.

(** The bodies of the three mutually recursive workers, with the recursive
    calls taken as parameters; the workers themselves are tied below. *)
Section Bodies.

Variable apply_rec_ : PDD -> PDD -> pdd_op -> M PDD.
Variable reduce_on_match_ : PDD -> PDD -> M PDD.
Variable lt_quotient_ : PDD -> PDD -> M PDD.

Definition apply_rec_body (p q : PDD) (op : pdd_op) : M PDD := fun m0 =>
    match apply_pre m0 p q op with
    | pre_return c => c m0
    | pre_continue p q =>
      (let* hit := cache_probe p q op in
       match hit with
       | Some r => ret r
       | None =>
         let* level_p := gets (fun m => level m p) in
         let* level_q := gets (fun m => level m q) in
         let* q_is_val := gets (fun m => is_val m q) in
         match op with
         | pdd_add_op =>
             let lo_arm :=
               let* lp := gets (fun m => lo m p) in
               let* x := apply_rec_ lp q op in
               do* push x in
               let* r1 := read 1 in
               let* hp := gets (fun m => hi m p) in
               let* r := make_node level_p r1 hp in
               finish p q op 1 r in
             if q_is_val then lo_arm
             else if level_p =? level_q then
               let* lp := gets (fun m => lo m p) in
               let* lq := gets (fun m => lo m q) in
               let* x := apply_rec_ lp lq op in
               do* push x in
               let* hp := gets (fun m => hi m p) in
               let* hq := gets (fun m => hi m q) in
               let* y := apply_rec_ hp hq op in
               do* push y in
               let* r2 := read 2 in
               let* r1 := read 1 in
               let* r := make_node level_p r2 r1 in
               finish p q op 2 r
             else if level_q <? level_p then lo_arm
             else throw undefined
         | pdd_mul_op =>
             let distribute :=
               let* lp := gets (fun m => lo m p) in
               let* x := apply_rec_ lp q op in
               do* push x in
               let* hp := gets (fun m => hi m p) in
               let* y := apply_rec_ hp q op in
               do* push y in
               let* r2 := read 2 in
               let* r1 := read 1 in
               let* r := make_node level_p r2 r1 in
               finish p q op 2 r in
             if q_is_val then distribute
             else if negb (level_p =? level_q) then distribute
             else
               let* mod2 := gets m_mod2_semantics in
               if mod2 then
                 let* lp := gets (fun m => lo m p) in
                 let* lq := gets (fun m => lo m q) in
                 let* x := apply_rec_ lp lq pdd_mul_op in
                 do* push x in
                 let* bd := read 3 in
                 let* hp := gets (fun m => hi m p) in
                 let* lp := gets (fun m => lo m p) in
                 let* u := apply_rec_ hp lp pdd_add_op in
                 do* push u in
                 let* hq := gets (fun m => hi m q) in
                 let* lq := gets (fun m => lo m q) in
                 let* v := apply_rec_ hq lq pdd_add_op in
                 do* push v in
                 let* a1 := read 1 in
                 let* a2 := read 2 in
                 let* w := apply_rec_ a1 a2 pdd_mul_op in
                 do* push w in
                 let* b1 := read 1 in
                 let* z := apply_rec_ b1 bd pdd_add_op in
                 do* push z in
                 let* r1 := read 1 in
                 let* r := make_node level_p bd r1 in
                 finish p q op 5 r
               else
                 let* hp := gets (fun m => hi m p) in
                 let* hq := gets (fun m => hi m q) in
                 let* x1 := apply_rec_ hp hq op in
                 do* push x1 in
                 let* hp := gets (fun m => hi m p) in
                 let* lq := gets (fun m => lo m q) in
                 let* x2 := apply_rec_ hp lq op in
                 do* push x2 in
                 let* lp := gets (fun m => lo m p) in
                 let* hq := gets (fun m => hi m q) in
                 let* x3 := apply_rec_ lp hq op in
                 do* push x3 in
                 let* lp := gets (fun m => lo m p) in
                 let* lq := gets (fun m => lo m q) in
                 let* x4 := apply_rec_ lp lq op in
                 do* push x4 in
                 let* ac := read 4 in
                 let* ad := read 3 in
                 let* bc := read 2 in
                 let* bd := read 1 in
                 let* s := apply_rec_ ad bc pdd_add_op in
                 do* push s in
                 let* n := read 1 in
                 let* lift := gets (fun m => negb (is_val m n) && (level m n =? level_p)) in
                 if lift then
                   let* hn := gets (fun m => hi m n) in
                   let* t := apply_rec_ ac hn pdd_add_op in
                   do* push t in
                   let* ln := gets (fun m => lo m n) in
                   let* r1 := read 1 in
                   let* inner := make_node level_p ln r1 in
                   do* push inner in
                   let* r1 := read 1 in
                   let* r := make_node level_p bd r1 in
                   finish p q op 7 r
                 else
                   let* inner := make_node level_p n ac in
                   do* push inner in
                   let* r1 := read 1 in
                   let* r := make_node level_p bd r1 in
                   finish p q op 6 r
         | pdd_reduce_op =>
             if level_q <? level_p then
               let* lp := gets (fun m => lo m p) in
               let* x := apply_rec_ lp q op in
               do* push x in
               let* hp := gets (fun m => hi m p) in
               let* y := apply_rec_ hp q op in
               do* push y in
               let* r2 := read 2 in
               let* r1 := read 1 in
               let* r := make_node level_p r2 r1 in
               finish p q op 2 r
             else
               let* r := reduce_on_match_ p q in
               finish p q op 0 r
         | pdd_minus_op => throw undefined
         end
       end) m0
    end.

(** One turn of the loop of [reduce_on_match]; [fuel] bounds the walk of
    [lm_divides]. *)
Definition reduce_on_match_body (fuel : nat) (a b : PDD) : M PDD :=
  let* d := (fun m => lift_option (lm_divides fuel m b a) m) in
  if d then
    let* q := lt_quotient_ b a in
    let* r := apply_with (apply_rec_ q b pdd_mul_op) in
    let* a' := apply_with (apply_rec_ a r pdd_add_op) in
    reduce_on_match_ a' b
  else ret a.

Definition lt_quotient_body (p q : PDD) : M PDD := fun m =>
  let fall_through :=
    let* t := lt_quotient_ p (hi m q) in
    let* x := gets (fun m => default 0 (m_var2pdd m !! var m q)) in
    apply_with (apply_rec_ x t pdd_mul_op) in
  if is_val m p then
    if is_val m q then imk_val (Rat.div (Rat.neg (val m q)) (val m p)) m
    else fall_through m
  else if level m p =? level m q then lt_quotient_ (hi m p) (hi m q) m
  else fall_through m.

End Bodies.

Fixpoint apply_rec (fuel : nat) (p q : PDD) (op : pdd_op) {struct fuel} : M PDD :=
  match fuel with
  | 0 => throw out_of_fuel
  | S f => apply_rec_body (apply_rec f) (reduce_on_match f) p q op
  end

with reduce_on_match (fuel : nat) (a b : PDD) {struct fuel} : M PDD :=
  match fuel with
  | 0 => throw out_of_fuel
  | S f => reduce_on_match_body (apply_rec f) (reduce_on_match f) (lt_quotient f) (S f) a b
  end

with lt_quotient (fuel : nat) (p q : PDD) {struct fuel} : M PDD :=
  match fuel with
  | 0 => throw out_of_fuel
  | S f => lt_quotient_body (apply_rec f) (lt_quotient f) p q
  end.

Definition apply (fuel : nat) (arg1 arg2 : PDD) (op : pdd_op) : M PDD :=
  apply_with (apply_rec fuel arg1 arg2 op).

(** ** Unary minus *)

Fixpoint minus_rec (fuel : nat) (a : PDD) : M PDD :=
  match fuel with
  | 0 => throw out_of_fuel
  | S f => fun m =>
      if is_zero a then Ok zero_pdd m
      else if is_val m a then imk_val (Rat.neg (val m a)) m
      else
        (let* hit := cache_probe a a pdd_minus_op in
         match hit with
         | Some r => ret r
         | None =>
             let* la := gets (fun m => lo m a) in
             let* x := minus_rec f la in
             do* push x in
             let* ha := gets (fun m => hi m a) in
             let* y := minus_rec f ha in
             do* push y in
             let* lvl := gets (fun m => level m a) in
             let* r2 := read 2 in
             let* r1 := read 1 in
             let* r := make_node lvl r2 r1 in
             do* pop 2 in
             do* cache_store a a pdd_minus_op r in
             ret r
         end) m
  end.

Definition minus (fuel : nat) (a : PDD) : M PDD := fun m =>
  if m_mod2_semantics m then mk_pdd a m
  else (let* r := apply_with (minus_rec fuel a) in mk_pdd r) m.

(** ** The handle-level interface *)

(** A local handle goes out of scope when its function returns or throws. *)
Definition with_local {A} (h : PDD) (c : M A) : M A := fun m =>
  match c m with
  | Ok a m' => Ok a (state_of (dec_ref h m'))
  | Err e m' => Err e (state_of (dec_ref h m'))
  end.

Definition add (fuel : nat) (a b : PDD) : M PDD :=
  let* r := apply fuel a b pdd_add_op in mk_pdd r.
Definition sub (fuel : nat) (a b : PDD) : M PDD :=
  let* m := minus fuel b in
  with_local m (let* r := apply fuel a m pdd_add_op in mk_pdd r).
Definition mul (fuel : nat) (a b : PDD) : M PDD :=
  let* r := apply fuel a b pdd_mul_op in mk_pdd r.
Definition reduce (fuel : nat) (a b : PDD) : M PDD :=
  let* r := apply fuel a b pdd_reduce_op in mk_pdd r.
Definition mk_val (r : rational) : M PDD :=
  let* p := imk_val r in mk_pdd p.
Definition mul_rat (fuel : nat) (r : rational) (b : PDD) : M PDD :=
  let* c := mk_val r in
  with_local c (let* x := apply fuel c b pdd_mul_op in mk_pdd x).
Definition add_rat (fuel : nat) (r : rational) (b : PDD) : M PDD :=
  let* c := mk_val r in
  with_local c (let* x := apply fuel c b pdd_add_op in mk_pdd x).
Definition zero : M PDD := mk_pdd zero_pdd.
Definition one : M PDD := mk_pdd one_pdd.
Definition mk_var (i : nat) : M PDD :=
  do* reserve_var i in
  let* p := gets (fun m => default 0 (m_var2pdd m !! i)) in
  mk_pdd p.

(** ** Monomials *)

Definition monomials_t := list (rational * list nat).

Fixpoint to_monomials (fuel : nat) (m : manager) (p : PDD) : option monomials_t :=
  match fuel with
  | 0 => None
  | S f =>
      if is_val m p then
        Some (if negb (Rat.is_zero (val m p)) then [(val m p, [])] else [])
      else
        match to_monomials f m (hi m p), to_monomials f m (lo m p) with
        | Some mons, Some rest =>
            Some (map (fun c => (fst c, snd c ++ [var m p])) mons ++ rest)
        | _, _ => None
        end
  end.

(** ** Groebner helpers *)

(** [while (!is_val(x)) acc.push_back(var(x)), x = hi(x);] *)
Fixpoint spine_vars (fuel : nat) (m : manager) (x : PDD) (acc : list nat)
  : option (list nat * PDD) :=
  match fuel with
  | 0 => None
  | S f => if is_val m x then Some (acc, x)
           else spine_vars f m (hi m x) (acc ++ [var m x])
  end.

Record factors := mk_factors {
  cf_found : bool;
  cf_p : list nat; cf_q : list nat;
  cf_pc : rational; cf_qc : rational
}.

Fixpoint common_factors_loop (fuel : nat) (m : manager) (x y : PDD) (has_common : bool)
    (p q : list nat) (pc qc : rational) : option factors :=
  match fuel with
  | 0 => None
  | S f =>
      if is_val m x || is_val m y then
        if negb has_common then Some (mk_factors false p q pc qc)
        else
          match spine_vars (S f) m y q with
          | None => None
          | Some (q', y') =>
              match spine_vars (S f) m x p with
              | None => None
              | Some (p', x') =>
                  let pc := val m x' in
                  let qc := val m y' in
                  if negb (m_mod2_semantics m) && Rat.is_int pc && Rat.is_int qc then
                    let g := Rat.gcd pc qc in
                    Some (mk_factors true p' q' (Rat.div pc g) (Rat.div qc g))
                  else Some (mk_factors true p' q' pc qc)
              end
          end
      else if level m x =? level m y then
        common_factors_loop f m (hi m x) (hi m y) true p q pc qc
      else if level m y <? level m x then
        common_factors_loop f m (hi m x) y has_common (p ++ [var m x]) q pc qc
      else
        common_factors_loop f m x (hi m y) has_common p (q ++ [var m y]) pc qc
  end.

(** The output parameters [pc] and [qc] keep their incoming values when the
    function returns false. *)
Definition common_factors (fuel : nat) (m : manager) (a b : PDD) (pc qc : rational)
  : option factors :=
  common_factors_loop fuel m a b false [] [] pc qc.

(** [for (i = vars.size(); i-- > 0; ) r = mul(mk_var(vars[i]), r);] over the
    reversed vector. *)
Fixpoint mul_vars (fuel : nat) (vars_rev : list nat) (r : PDD) : M PDD :=
  match vars_rev with
  | [] => ret r
  | v :: rest =>
      let* x := mk_var v in
      let* t := with_local x (mul fuel x r) in
      do* dec_ref r in
      mul_vars fuel rest t
  end.

Definition spoly (fuel : nat) (a b : PDD) (p q : list nat) (pc qc : rational) : M PDD :=
  let* r1 := mk_val qc in
  let* r1 := mul_vars fuel (rev q) r1 in
  let* r1' := mul fuel a r1 in
  do* dec_ref r1 in
  with_local r1'
    (let* r2 := mk_val (Rat.neg pc) in
     let* r2 := mul_vars fuel (rev p) r2 in
     let* r2' := mul fuel b r2 in
     do* dec_ref r2 in
     with_local r2' (add fuel r1' r2')).

Definition try_spoly (fuel : nat) (a b : PDD) : M (option PDD) := fun m =>
  match common_factors fuel m a b Rat.zero Rat.zero with
  | None => Err out_of_fuel m
  | Some c =>
      if cf_found c then
        (let* r := spoly fuel a b (cf_p c) (cf_q c) (cf_pc c) (cf_qc c) in ret (Some r)) m
      else Ok None m
  end.

Fixpoint lt_loop (fuel : nat) (m : manager) (x y : PDD) : option bool :=
  match fuel with
  | 0 => None
  | S f =>
      if is_val m x then Some (negb (is_val m y) || Rat.ltb (val m x) (val m y))
      else if is_val m y then Some false
      else if level m x =? level m y then
        if hi m x =? hi m y then lt_loop f m (lo m x) (lo m y)
        else lt_loop f m (hi m x) (hi m y)
      else Some (level m y <? level m x)
  end.

Definition lt (fuel : nat) (m : manager) (a b : PDD) : option bool :=
  if a =? b then Some false else lt_loop fuel m a b.

(** ** Seed scenarios on a manager with four variables *)

Definition scenario_fuel : nat := 64.

(** What a run denotes: the monomials of the handle it returns. *)
Definition denotes (r : result PDD) : option monomials_t :=
  match r with
  | Ok p m => to_monomials scenario_fuel m p
  | Err _ _ => None
  end.

Definition new_manager (num_vars : nat) (mod2 : bool) : M unit :=
  do* pdd_manager num_vars in modify (set_mod2_semantics mod2).

(** [(v0 + 1) * (v0 + 1)] *)
Definition square_v0_plus_1 (mod2 : bool) : M PDD :=
  do* new_manager 4 mod2 in
  let* v0 := mk_var 0 in
  let* o := one in
  let* p := add scenario_fuel v0 o in
  mul scenario_fuel p p.

(** [reduce(v0, 2)]: the handles of [v0] and of the constant 2, then the call. *)
Definition reduce_by_2_setup : M (PDD * PDD) :=
  do* new_manager 4 false in
  let* v0 := mk_var 0 in
  let* two := mk_val (Rat.of_Z 2) in
  ret (v0, two).

Definition reduce_v0_by_2 (fuel : nat) : M PDD :=
  let* vt := reduce_by_2_setup in
  reduce fuel (fst vt) (snd vt).

(** ** The retry discipline of the entry points, in the words of the
    specification: run the worker; on out-of-memory collect garbage and run
    it once more; an out-of-memory of the second run is passed on after
    another collection, and any other failure is passed on at once. *)
Definition spec_retry_once (worker : M PDD) : M PDD := fun m =>
  match worker m with
  | Ok r m1 => Ok r m1
  | Err mem_out m1 =>
      match worker (try_gc m1) with
      | Ok r m2 => Ok r m2
      | Err mem_out m2 => Err mem_out (try_gc m2)
      | Err e m2 => Err e m2
      end
  | Err e m1 => Err e m1
  end.

(** ** A manager whose free list has run dry, on a small pool: the
    constructor run with [prealloc] slots instead of 1024, one variable, and
    the powers [v0^2, v0^3, ...] until the slots are used up; [keep] says
    whether the handle of the last power stays alive. *)
Fixpoint fill_powers (k : nat) (p : PDD) (keep : bool) : M unit :=
  match k with
  | 0 => if keep then ret tt else dec_ref p
  | S k' =>
      let* v0 := mk_var 0 in
      let* p' := mul 4 v0 p in
      do* dec_ref p in
      fill_powers k' p' keep
  end.

Definition full_manager (prealloc : nat) (ceiling : N) (keep : bool) : M unit :=
  do* pdd_manager_with prealloc 1 in
  do* modify (with_max_num_nodes ceiling) in
  let* v0 := mk_var 0 in
  fill_powers (prealloc - 2) v0 keep.

(** How a run ended: [None] for a normal return, the exception otherwise. *)
Definition outcome {A} (r : result A) : option error :=
  match r with Ok _ _ => None | Err e _ => Some e end.

Definition root_of (r : result PDD) : option PDD :=
  match r with Ok p _ => Some p | Err _ _ => None end.

(** A full pool of 14 slots, all live, with a ceiling equal to its size. *)
Definition full_pool : manager := state_of (full_manager 6 14 true empty_manager).

(** ** Leading coefficient: the value at the end of the hi spine *)

Inductive spine_end (m : manager) : PDD -> PDD -> Prop :=
| spine_end_val x : is_val m x = true -> spine_end m x x
| spine_end_hi x y : is_val m x = false -> spine_end m (hi m x) y -> spine_end m x y.

Definition leading_coeff (m : manager) (x : PDD) (c : rational) : Prop :=
  exists y, spine_end m x y /\ val m y = c.

(** ** Further scenarios *)

(** Two polynomials with the leading coefficient 2/3: [a = b = (2/3) * v0]. *)
Definition two_thirds_v0 : M PDD :=
  do* new_manager 4 false in
  let* v0 := mk_var 0 in
  mul_rat scenario_fuel (2 # 3)%Q v0.

(** Both products of [v0] and [v0 + 1], in one manager. *)
Definition both_products (mod2 : bool) : M (PDD * PDD) :=
  do* new_manager 4 mod2 in
  let* v0 := mk_var 0 in
  let* o := one in
  let* p := add scenario_fuel v0 o in
  let* r1 := mul scenario_fuel v0 p in
  let* r2 := mul scenario_fuel p v0 in
  ret (r1, r2).

(** [a = 4 * v0] and [b = 6 * v0]. *)
Definition four_v0_six_v0 : M (PDD * PDD) :=
  do* new_manager 4 false in
  let* v0 := mk_var 0 in
  let* a := mul_rat scenario_fuel (Rat.of_Z 4) v0 in
  let* b := mul_rat scenario_fuel (Rat.of_Z 6) v0 in
  ret (a, b).

(** Four variables with the two lowest levels exchanged. *)
Definition reordered_manager : manager :=
  state_of ((do* pdd_manager 4 in set_level2var [1; 0; 2; 3]) empty_manager).

(** Seed scenario 3: [a = v2*v1 + v0], [b = v2*v0 + 1], their S-polynomial and
    the monomial [lcm(lm(a), lm(b)) = v2*v1*v0]. *)
Record spoly_run := mk_spoly_run {
  sr_spoly : option PDD;
  sr_lcm : PDD
}.

Definition spoly_scenario : M spoly_run :=
  do* new_manager 4 false in
  let* v0 := mk_var 0 in
  let* v1 := mk_var 1 in
  let* v2 := mk_var 2 in
  let* o := one in
  let* v21 := mul scenario_fuel v2 v1 in
  let* a := add scenario_fuel v21 v0 in
  let* v20 := mul scenario_fuel v2 v0 in
  let* b := add scenario_fuel v20 o in
  let* r := try_spoly scenario_fuel a b in
  let* l := mul scenario_fuel v21 v0 in
  ret (mk_spoly_run r l).

(** ** Further queries *)

Fixpoint different_leading_term (fuel : nat) (m : manager) (x y : PDD) : option bool :=
  match fuel with
  | 0 => None
  | S f =>
      if x =? y then Some false
      else if is_val m x || is_val m y then Some true
      else if level m x =? level m y then different_leading_term f m (hi m x) (hi m y)
      else Some true
  end.

Fixpoint is_linear (fuel : nat) (m : manager) (p : PDD) : option bool :=
  match fuel with
  | 0 => None
  | S f =>
      if is_val m p then Some true
      else if negb (is_val m (hi m p)) then Some false
      else is_linear f m (lo m p)
  end.

(** ** Notions used in the statements and proofs below *)

(** ** Fuel: more fuel never changes a finished run *)
Definition fuel_le {A} (r r' : result A) : Prop :=
  match r with
  | Err out_of_fuel _ => True
  | _ => r = r'
  end.

Definition M_le {A} (c c' : M A) : Prop := forall m, fuel_le (c m) (c' m).

Definition c2_st0 := state_of (reduce_by_2_setup empty_manager).
Definition c2_st0' := state_of (cache_probe 2 6 pdd_reduce_op c2_st0).
Definition c2_st1 := state_of (lt_quotient 4 6 2 c2_st0').
Definition c2_st2 := state_of (apply_with (apply_rec 4 8 6 pdd_mul_op) c2_st1).
Definition c2_st3 := state_of (apply_with (apply_rec 4 2 10 pdd_add_op) c2_st2).

Definition reduced_pair (mod2 : bool) (la lb : rational) : rational * rational :=
  if negb mod2 && Rat.is_int la && Rat.is_int lb
  then (Rat.div la (Rat.gcd la lb), Rat.div lb (Rat.gcd la lb))
  else (la, lb).

Definition c8_state : manager := state_of (four_v0_six_v0 empty_manager).

Definition two_thirds_state : manager := state_of (two_thirds_v0 empty_manager).

(** Two nodes that differ at most in the value of a positive reference
    count. *)
Definition node_sim (n n' : pdd_node) : Prop :=
  m_level n = m_level n' /\ m_lo n = m_lo n' /\ m_hi n = m_hi n' /\
  m_index n = m_index n' /\ (0 <? m_refcount n) = (0 <? m_refcount n').

(** Two managers that agree on everything but the values of the positive
    reference counts, in the pool and in the copies held by the node table. *)
Record sim (m m' : manager) : Prop := mk_sim {
  sim_nodes : Forall2 node_sim (m_nodes m) (m_nodes m');
  sim_node_table : Forall2 node_sim (m_node_table m) (m_node_table m');
  sim_values : m_values m = m_values m';
  sim_free_values : m_free_values m = m_free_values m';
  sim_mpq_table : m_mpq_table m = m_mpq_table m';
  sim_freeze_value : m_freeze_value m = m_freeze_value m';
  sim_free_nodes : m_free_nodes m = m_free_nodes m';
  sim_op_cache : m_op_cache m = m_op_cache m';
  sim_pdd_stack : m_pdd_stack m = m_pdd_stack m';
  sim_var2pdd : m_var2pdd m = m_var2pdd m';
  sim_var2level : m_var2level m = m_var2level m';
  sim_level2var : m_level2var m = m_level2var m';
  sim_max : m_max_num_pdd_nodes m = m_max_num_pdd_nodes m';
  sim_disable_gc : m_disable_gc m = m_disable_gc m';
  sim_is_new_node : m_is_new_node m = m_is_new_node m';
  sim_mod2 : m_mod2_semantics m = m_mod2_semantics m'
}.

Definition res_sim {A} (r r' : result A) : Prop :=
  match r, r' with
  | Ok a m, Ok a' m' => a = a' /\ sim m m'
  | Err e m, Err e' m' => e = e' /\ sim m m'
  | _, _ => False
  end.

(** A computation whose result, and whose final manager up to [sim], do not
    depend on the values of the positive reference counts. *)
Definition respects {A} (c : M A) : Prop :=
  forall m m', sim m m' -> res_sim (c m) (c m').

(** The last part of [insert_node], from the ceiling test on, and the part
    after the first look-up; [insert_node] is their composition. *)
Definition insert_node_finish (do_gc : bool) (e2 : pdd_node) (m2 : manager) : result PDD :=
  if do_gc && (m_max_num_pdd_nodes m2 <? N.of_nat (length (m_nodes m2)))%N
  then Err mem_out m2
  else
    let m3 := if do_gc then alloc_free_nodes (length (m_nodes m2) / 2) m2 else m2 in
    match last (m_free_nodes m3) with
    | None => Err undefined m3
    | Some result =>
        let e3 := set_index result e2 in
        Ok result
          (with_is_new_node true
             (with_nodes (<[result := e3]> (m_nodes m3))
                (with_node_table (table_insert e3 (m_node_table m3))
                   (with_free_nodes (removelast (m_free_nodes m3)) m3))))
    end.

Definition insert_node_tail (n e : pdd_node) (t : list pdd_node) (m : manager) : result PDD :=
  if negb (m_index e =? 0) then Ok (m_index e) (with_node_table t m)
  else
    let e1 := set_refcount 0 e in
    let m1 := with_node_table (table_insert e1 t) m in
    let do_gc := match m_free_nodes m1 with [] => true | _ => false end in
    if do_gc && negb (m_disable_gc m1) then
      let mg := gc m1 in
      let et := insert_if_not_there2 n (m_node_table mg) in
      let e'' := set_refcount 0 (fst et) in
      insert_node_finish do_gc e'' (with_node_table (table_insert e'' (snd et)) mg)
    else insert_node_finish do_gc e1 m1.

(** [v0 + v1] in mod-2 mode, held by one handle: node 6. *)
Definition c10_state : manager :=
  state_of ((do* new_manager 4 true in
             let* v0 := mk_var 0 in
             let* v1 := mk_var 1 in
             add 8 v0 v1) empty_manager).

Fixpoint unmarked (r : list bool) : nat :=
  match r with
  | [] => 0
  | b :: r' => (if b then 0 else 1) + unmarked r'
  end.

Definition ok_child (r : list bool) (c : PDD) : Prop :=
  reach r c = true \/ length r <= c.

Definition closed (m : manager) (r : list bool) (todo : list PDD) : Prop :=
  forall p, reach r p = true ->
    In p todo \/ is_val m p = true \/ (ok_child r (lo m p) /\ ok_child r (hi m p)).

Definition weight (r : list bool) (t : PDD) : nat := if t <? length r then 3 else 1.

Definition potential (r : list bool) (todo : list PDD) : nat :=
  list_sum (map (weight r) todo) + 3 * unmarked r.

(** One child of a node taken from the work list. *)
Definition visit (c : PDD) (tr : list PDD * list bool) : list PDD * list bool :=
  if negb (reach (snd tr) c) then (c :: fst tr, <[c := true]> (snd tr)) else tr.

Definition c4_state : manager := state_of (square_v0_plus_1 false empty_manager).

(** A computation that leaves the evaluation stack as it is, whether it
    returns or throws. *)
Definition keeps {A} (c : M A) : Prop :=
  forall m, m_pdd_stack (state_of (c m)) = m_pdd_stack m.

(** [stk s0 c l l']: started on the stack [s0 ++ l], [c] returns with the
    stack [s0 ++ l'], and if it throws, the stack still begins with [s0]. *)
Definition stk (s0 : list PDD) {A} (c : M A) (l l' : list PDD) : Prop :=
  forall m, m_pdd_stack m = s0 ++ l ->
    match c m with
    | Ok _ m' => m_pdd_stack m' = s0 ++ l'
    | Err _ m' => s0 `prefix_of` m_pdd_stack m'
    end.

(** Pushes and pops balance, and nothing below the starting height is
    popped. *)
Definition balanced {A} (c : M A) : Prop := forall s0, stk s0 c [] [].

Definition dead_powers_state : manager := state_of (full_manager 6 10 false empty_manager).

Definition pushed_state : manager := state_of (push 9 c4_state).

Definition fresh_state : manager := state_of (new_manager 4 false empty_manager).
Definition after_insert : manager := state_of (insert_node (pdd_node3 0 1 1) fresh_state).

(** The variable maps and the value vectors, which a node insertion on a
    non-empty free list does not touch. *)
Definition same_vars (m m' : manager) : Prop :=
  m_var2pdd m' = m_var2pdd m /\ m_var2level m' = m_var2level m /\
  m_level2var m' = m_level2var m /\
  m_values m' = m_values m /\ m_free_values m' = m_free_values m.

(** What the constructor has built after reserving the variables [0 .. v-1],
    with [c] slots left on the free list. *)
Record var_inv (m : manager) (v c : nat) : Prop := mk_var_inv {
  vi_var2level : m_var2level m = seq 0 v;
  vi_level2var : m_level2var m = seq 0 v;
  vi_var2pdd : m_var2pdd m = seq 2 v;
  vi_free : m_free_nodes m = rev (seq (2 + v) c);
  vi_size : 2 + v + c <= length (m_nodes m);
  vi_nodes : forall v', v' < v ->
    m_nodes m !! (2 + v') = Some (mk_node max_rc v' 0 1 (2 + v'));
  vi_table : forall e, In e (m_node_table m) ->
    m_lo e = 0 -> m_hi e = 1 -> m_level e < v
}.

(** [spine m x s e]: following [hi] from [x] passes the variables [s] and
    ends in the value node [e]; [s] is the leading monomial of [x]. *)
Inductive spine (m : manager) : PDD -> list nat -> PDD -> Prop :=
| spine_val x : is_val m x = true -> spine m x [] x
| spine_hi x s e : is_val m x = false -> spine m (hi m x) s e ->
    spine m x (var m x :: s) e.

Definition spoly_state : manager := state_of (spoly_scenario empty_manager).

Lemma fuel_le_refl {A} (r : result A) : fuel_le r r.
Proof. destruct r as [|[]]; simpl; auto. Qed.

Lemma M_le_refl {A} (c : M A) : M_le c c.
Proof. intros m; apply fuel_le_refl. Qed.

Lemma bind_mono {A B} (c c' : M A) (k k' : A -> M B) :
  M_le c c' -> (forall a, M_le (k a) (k' a)) -> M_le (bind c k) (bind c' k').
Proof.
  intros Hc Hk m. unfold bind. specialize (Hc m).
  destruct (c m) as [a m1|e m1]; simpl in Hc.
  - rewrite <- Hc. apply Hk.
  - destruct e; simpl; auto; rewrite <- Hc; simpl; auto.
Qed.

Lemma bind_mono_r {A B} (c : M A) (k k' : A -> M B) :
  (forall a, M_le (k a) (k' a)) -> M_le (bind c k) (bind c k').
Proof. intros; apply bind_mono; auto using M_le_refl. Qed.

Lemma retry_loop_mono n first (w w' : M PDD) :
  M_le w w' -> M_le (retry_loop n first w) (retry_loop n first w').
Proof.
  intros Hw. revert first. induction n; intros first m; simpl; auto.
  pose proof (Hw m) as H. destruct (w m) as [a m1|e m1]; simpl in H.
  - rewrite <- H. simpl. auto.
  - destruct e; simpl; auto; rewrite <- H; simpl; auto.
    destruct first; simpl; auto. apply IHn.
Qed.

Lemma scoped_push_mono {A} (c c' : M A) : M_le c c' -> M_le (scoped_push c) (scoped_push c').
Proof.
  intros Hc m. unfold scoped_push. specialize (Hc m).
  destruct (c m) as [a m1|e m1]; simpl in Hc.
  - rewrite <- Hc. simpl. auto.
  - destruct e; simpl; auto; rewrite <- Hc; simpl; auto.
Qed.

Lemma apply_with_mono (w w' : M PDD) : M_le w w' -> M_le (apply_with w) (apply_with w').
Proof. intros; apply scoped_push_mono, retry_loop_mono; auto. Qed.

Lemma lm_divides_S f m p q :
  lm_divides (S f) m p q =
  if is_val m p then Some true
  else if is_val m q then Some false
  else if level m q <? level m p then Some false
  else if level m p =? level m q then lm_divides f m (hi m p) (hi m q)
  else lm_divides f m p (hi m q).
Proof. reflexivity. Qed.

Lemma lm_divides_mono f m p q b :
  lm_divides f m p q = Some b -> lm_divides (S f) m p q = Some b.
Proof.
  revert p q. induction f as [|f IH]; intros p q H; [discriminate|].
  rewrite lm_divides_S in H. rewrite (lm_divides_S (S f)).
  destruct (is_val m p); auto. destruct (is_val m q); auto.
  destruct (_ <? _); auto. destruct (_ =? _); apply IH; exact H.
Qed.

Ltac mono_step :=
  match goal with
  | |- M_le (bind _ _) (bind _ _) => apply bind_mono; [|intros ?]
  | |- M_le (if ?b then _ else _) (if ?b then _ else _) => destruct b
  | |- M_le (match ?o with Some _ => _ | None => _ end)
            (match ?o with Some _ => _ | None => _ end) => destruct o
  | |- M_le (apply_with _) (apply_with _) => apply apply_with_mono
  | |- M_le ?c ?c => apply M_le_refl
  | H : forall p q op, M_le (?f p q op) (?g p q op) |- M_le (?f _ _ _) (?g _ _ _) => apply H
  | H : forall p q, M_le (?f p q) (?g p q) |- M_le (?f _ _) (?g _ _) => apply H
  end.

Section BodyMono.
Variables (ar ar' : PDD -> PDD -> pdd_op -> M PDD)
          (rom rom' ltq ltq' : PDD -> PDD -> M PDD).
Hypothesis Har : forall p q op, M_le (ar p q op) (ar' p q op).
Hypothesis Hrom : forall p q, M_le (rom p q) (rom' p q).
Hypothesis Hltq : forall p q, M_le (ltq p q) (ltq' p q).

Lemma apply_rec_body_mono p q op :
  M_le (apply_rec_body ar rom p q op) (apply_rec_body ar' rom' p q op).
Proof.
  intros m. unfold apply_rec_body.
  destruct (apply_pre m p q op); [apply fuel_le_refl|].
  revert m. change (M_le ?a ?b) with (M_le a b).
  match goal with |- forall m, fuel_le (?c m) (?c' m) => change (M_le c c') end.
  destruct op; cbv zeta; repeat mono_step.
Qed.

End BodyMono.

Lemma lift_lm_divides_mono f b a :
  M_le (fun m => lift_option (lm_divides f m b a) m)
       (fun m => lift_option (lm_divides (S f) m b a) m).
Proof.
  intros m. destruct (lm_divides f m b a) eqn:E.
  - rewrite (lm_divides_mono _ _ _ _ _ E). simpl. auto.
  - simpl. auto.
Qed.

Section BodyMono2.
Variables (ar ar' : PDD -> PDD -> pdd_op -> M PDD)
          (rom rom' ltq ltq' : PDD -> PDD -> M PDD).
Hypothesis Har : forall p q op, M_le (ar p q op) (ar' p q op).
Hypothesis Hrom : forall p q, M_le (rom p q) (rom' p q).
Hypothesis Hltq : forall p q, M_le (ltq p q) (ltq' p q).

Lemma reduce_on_match_body_mono f a b :
  M_le (reduce_on_match_body ar rom ltq f a b) (reduce_on_match_body ar' rom' ltq' (S f) a b).
Proof.
  unfold reduce_on_match_body.
  apply bind_mono; [apply lift_lm_divides_mono|].
  intros d. repeat mono_step.
Qed.

Lemma lt_quotient_body_mono p q :
  M_le (lt_quotient_body ar ltq p q) (lt_quotient_body ar' ltq' p q).
Proof.
  assert (Hft : forall h,
    M_le (let* t := ltq p h in
          let* x := gets (fun m => default 0 (m_var2pdd m !! var m q)) in
          apply_with (ar x t pdd_mul_op))
         (let* t := ltq' p h in
          let* x := gets (fun m => default 0 (m_var2pdd m !! var m q)) in
          apply_with (ar' x t pdd_mul_op))) by (intros; repeat mono_step).
  intros m. unfold lt_quotient_body. cbv zeta.
  destruct (is_val m p); [destruct (is_val m q)|destruct (_ =? _)].
  - apply fuel_le_refl.
  - apply (Hft (hi m q) m).
  - apply Hltq.
  - apply (Hft (hi m q) m).
Qed.

End BodyMono2.

Lemma fuel_le_trans {A} (r1 r2 r3 : result A) : fuel_le r1 r2 -> fuel_le r2 r3 -> fuel_le r1 r3.
Proof.
  destruct r1 as [|[]]; simpl; auto; intros <-; simpl; auto.
Qed.

Lemma workers_mono f :
  (forall p q op, M_le (apply_rec f p q op) (apply_rec (S f) p q op)) /\
  (forall a b, M_le (reduce_on_match f a b) (reduce_on_match (S f) a b)) /\
  (forall p q, M_le (lt_quotient f p q) (lt_quotient (S f) p q)).
Proof.
  induction f as [|f (IHa & IHr & IHl)].
  - repeat split; intros; intros m; simpl; auto.
  - repeat split; intros.
    + apply apply_rec_body_mono; auto.
    + apply reduce_on_match_body_mono; auto.
    + apply lt_quotient_body_mono; auto.
Qed.

Lemma apply_rec_mono f k p q op : M_le (apply_rec f p q op) (apply_rec (f + k) p q op).
Proof.
  induction k.
  - rewrite Nat.add_0_r. apply M_le_refl.
  - intros m. eapply fuel_le_trans; [apply IHk|].
    replace (f + S k) with (S (f + k)) by lia. apply workers_mono.
Qed.

Lemma reduce_on_match_mono f k a b : M_le (reduce_on_match f a b) (reduce_on_match (f + k) a b).
Proof.
  induction k.
  - rewrite Nat.add_0_r. apply M_le_refl.
  - intros m. eapply fuel_le_trans; [apply IHk|].
    replace (f + S k) with (S (f + k)) by lia. apply workers_mono.
Qed.

Lemma lt_quotient_mono f k a b : M_le (lt_quotient f a b) (lt_quotient (f + k) a b).
Proof.
  induction k.
  - rewrite Nat.add_0_r. apply M_le_refl.
  - intros m. eapply fuel_le_trans; [apply IHk|].
    replace (f + S k) with (S (f + k)) by lia. apply workers_mono.
Qed.

Lemma apply_mono f k p q op : M_le (apply f p q op) (apply (f + k) p q op).
Proof. apply apply_with_mono, apply_rec_mono. Qed.

Lemma M_le_Ok {A} (c c' : M A) m a m' : M_le c c' -> c m = Ok a m' -> c' m = Ok a m'.
Proof. intros H E. specialize (H m). rewrite E in H. simpl in H. auto. Qed.

(** Divergence of reduce_on_match on a constant divisor *)

Lemma with_pdd_stack_id m : with_pdd_stack (take (length (m_pdd_stack m)) (m_pdd_stack m)) m = m.
Proof. rewrite firstn_all. destruct m; reflexivity. Qed.

Lemma apply_with_Ok (w : M PDD) m r : w m = Ok r m -> apply_with w m = Ok r m.
Proof.
  intros E. unfold apply_with, scoped_push. simpl. rewrite E.
  rewrite with_pdd_stack_id. reflexivity.
Qed.

Lemma rat_zero_quotient v : Rat.is_zero (Rat.div (Rat.neg 0%Q) v) = true.
Proof.
  unfold Rat.is_zero, Rat.div, Rat.neg. change (Qred (- 0)) with 0%Q.
  assert (H : Qred (0 / v) == 0).
  { rewrite Qred_correct. unfold Qdiv. ring. }
  unfold Qeq in H. change (Qnum 0) with 0%Z in H.
  change (Z.pos (Qden 0)) with 1%Z in H. apply Z.eqb_eq. lia.
Qed.

Lemma reduce_on_match_zero_diverges f m b :
  is_val m b = true -> is_val m zero_pdd = true -> val m zero_pdd = 0%Q ->
  reduce_on_match f zero_pdd b m = Err out_of_fuel m.
Proof.
  intros Hb H0 Hv. induction f as [|f IH]; [reflexivity|].
  cbn [reduce_on_match]. unfold reduce_on_match_body.
  unfold bind at 1. cbn [lm_divides]. rewrite Hb. cbn [lift_option].
  unfold bind at 1.
  destruct f as [|f1]; [reflexivity|].
  cbn [lt_quotient]. unfold lt_quotient_body. rewrite Hb, H0, Hv.
  unfold imk_val. cbn [imk_val_rec]. rewrite rat_zero_quotient.
  unfold bind at 1.
  rewrite (apply_with_Ok _ m zero_pdd) by reflexivity.
  unfold bind at 1.
  rewrite (apply_with_Ok _ m zero_pdd) by reflexivity.
  exact IH.
Qed.

(** The run of reduce(v0, 2) *)

Lemma c2_setup : reduce_by_2_setup empty_manager = Ok (2, 6) c2_st0.
Proof. vm_compute. reflexivity. Qed.

Lemma c2_body ar rom :
  apply_rec_body ar rom 2 6 pdd_reduce_op c2_st0
  = (let* r := rom 2 6 in finish 2 6 pdd_reduce_op 0 r) c2_st0'.
Proof. vm_compute. reflexivity. Qed.

Lemma c2_loop_body ar rom ltq n :
  reduce_on_match_body ar rom ltq (S n) 2 6 c2_st0'
  = (let* q := ltq 6 2 in
     let* r := apply_with (ar q 6 pdd_mul_op) in
     let* a' := apply_with (ar 2 r pdd_add_op) in
     rom a' 6) c2_st0'.
Proof. vm_compute. reflexivity. Qed.

Lemma c2_quotient : lt_quotient 4 6 2 c2_st0' = Ok 8 c2_st1.
Proof. vm_compute. reflexivity. Qed.
Lemma c2_product : apply_with (apply_rec 4 8 6 pdd_mul_op) c2_st1 = Ok 10 c2_st2.
Proof. vm_compute. reflexivity. Qed.
Lemma c2_sum : apply_with (apply_rec 4 2 10 pdd_add_op) c2_st2 = Ok 0 c2_st3.
Proof. vm_compute. reflexivity. Qed.

Lemma c2_loop f : exists m, reduce_on_match f 2 6 c2_st0' = Err out_of_fuel m.
Proof.
  destruct (Nat.le_gt_cases 5 f) as [Hf|Hf].
  - destruct f as [|f']; [lia|].
    replace f' with (4 + (f' - 4)) by lia. set (k := f' - 4).
    cbn [reduce_on_match]. rewrite c2_loop_body.
    unfold bind at 1.
    rewrite (M_le_Ok _ _ _ _ _ (lt_quotient_mono 4 k 6 2) c2_quotient).
    unfold bind at 1.
    rewrite (M_le_Ok _ _ _ _ _ (apply_with_mono _ _ (apply_rec_mono 4 k 8 6 pdd_mul_op)) c2_product).
    unfold bind at 1.
    rewrite (M_le_Ok _ _ _ _ _ (apply_with_mono _ _ (apply_rec_mono 4 k 2 10 pdd_add_op)) c2_sum).
    eexists. apply reduce_on_match_zero_diverges; vm_compute; reflexivity.
  - do 5 (destruct f as [|f]; [eexists; vm_compute; reflexivity|]). lia.
Qed.

Lemma c2_worker f : exists m, apply_rec f 2 6 pdd_reduce_op c2_st0 = Err out_of_fuel m.
Proof.
  destruct f as [|f]; [eexists; reflexivity|].
  cbn [apply_rec]. rewrite c2_body. unfold bind at 1.
  destruct (c2_loop f) as [m ->]. eexists; reflexivity.
Qed.

Theorem reduce_by_constant_never_returns fuel :
  exists m, reduce_v0_by_2 fuel empty_manager = Err out_of_fuel m.
Proof.
  unfold reduce_v0_by_2. unfold bind at 1. rewrite c2_setup.
  cbn [fst snd]. unfold reduce. unfold bind at 1.
  unfold apply, apply_with, scoped_push.
  destruct (c2_worker fuel) as [m Hm].
  cbn [retry_loop]. rewrite Hm. eexists; reflexivity.
Qed.

(** ** Seed scenario 1: the square of [v0 + 1] *)

(** C1 (as amended): in Q-mode, for [p = add(mk_var(0), one())] the product
    [mul(p, p)] denotes [v0*v0 + 2*v0 + 1]; [to_monomials] lists exactly these
    three monomials. *)
Theorem square_v0_plus_1_Q_mode :
  denotes (square_v0_plus_1 false empty_manager)
  = Some [(1%Q, [0; 0]); (2%Q, [0]); (1%Q, [])].
Proof. vm_cast_no_check (eq_refl (Some [(1%Q, [0; 0]); (2%Q, [0]); (1%Q, [])])). Qed.

(** In mod-2 mode the equal-level arm of the product reads the evaluation
    stack three entries down when it holds a single entry. *)
Lemma square_v0_plus_1_mod2_reads_outside_stack :
  exists m, square_v0_plus_1 true empty_manager = Err undefined m.
Proof. eexists. vm_compute. reflexivity. Qed.

(** C1, the claim as stated fails in its mod-2 half: the product of
    [v0 + 1] with itself does not denote [v0*v0 + 1]. *)
Lemma square_v0_plus_1_mod2_not_v0v0_plus_1 :
  denotes (square_v0_plus_1 true empty_manager) <> Some [(1%Q, [0; 0]); (1%Q, [])].
Proof.
  destruct square_v0_plus_1_mod2_reads_outside_stack as [m ->].
  discriminate.
Qed.

(** ** The frame of the collector *)

Lemma free_slot_frame i m :
  length (m_nodes (free_slot i m)) = length (m_nodes m) /\
  m_op_cache (free_slot i m) = m_op_cache m /\
  m_values (free_slot i m) = m_values m /\
  m_level2var (free_slot i m) = m_level2var m /\
  m_max_num_pdd_nodes (free_slot i m) = m_max_num_pdd_nodes m.
Proof. unfold free_slot; simpl. rewrite length_insert. auto. Qed.

Lemma sweep_step_frame r m i :
  length (m_nodes (sweep_step r m i)) = length (m_nodes m) /\
  m_op_cache (sweep_step r m i) = m_op_cache m /\
  m_values (sweep_step r m i) = m_values m /\
  m_level2var (sweep_step r m i) = m_level2var m /\
  m_max_num_pdd_nodes (sweep_step r m i) = m_max_num_pdd_nodes m.
Proof.
  unfold sweep_step.
  destruct (reach r i); auto.
  destruct (is_val m i); [destruct (Rat.eqb _ _); auto|];
    unfold free_slot; simpl; rewrite length_insert; auto.
Qed.

Lemma sweep_frame r ids m :
  length (m_nodes (fold_left (sweep_step r) ids m)) = length (m_nodes m) /\
  m_op_cache (fold_left (sweep_step r) ids m) = m_op_cache m /\
  m_values (fold_left (sweep_step r) ids m) = m_values m /\
  m_level2var (fold_left (sweep_step r) ids m) = m_level2var m /\
  m_max_num_pdd_nodes (fold_left (sweep_step r) ids m) = m_max_num_pdd_nodes m.
Proof.
  revert m. induction ids as [|i ids IH]; intros m; simpl; auto.
  destruct (IH (sweep_step r m i)) as (-> & -> & -> & -> & ->).
  apply sweep_step_frame.
Qed.

Lemma gc_frame m :
  length (m_nodes (gc m)) = length (m_nodes m) /\
  m_op_cache (gc m) = filter is_pending (m_op_cache m) /\
  m_values (gc m) = m_values m /\
  m_level2var (gc m) = m_level2var m /\
  m_max_num_pdd_nodes (gc m) = m_max_num_pdd_nodes m.
Proof.
  unfold gc. cbn [m_nodes m_op_cache m_values m_level2var m_max_num_pdd_nodes with_node_table with_op_cache with_free_nodes].
  destruct (sweep_frame (gc_reachable (with_free_nodes [] m)) (ids_down (with_free_nodes [] m))
              (with_free_nodes [] m)) as (-> & -> & -> & -> & ->).
  repeat split; reflexivity.
Qed.

(** ** Growth of the node pool *)

Lemma alloc_free_nodes_loop_spec n nodes free :
  length (fst (alloc_free_nodes_loop n nodes free)) = length nodes + n /\
  length (snd (alloc_free_nodes_loop n nodes free)) = length free + n.
Proof.
  revert nodes free. induction n as [|n IH]; intros nodes free; simpl; [lia|].
  destruct (IH (nodes ++ [set_index (length nodes) pdd_node0]) (free ++ [length nodes]))
    as [-> ->].
  rewrite !length_app. simpl. lia.
Qed.

Lemma alloc_free_nodes_spec n m :
  length (m_nodes (alloc_free_nodes n m)) = length (m_nodes m) + n /\
  length (m_free_nodes (alloc_free_nodes n m)) = length (m_free_nodes m) + n /\
  m_op_cache (alloc_free_nodes n m) = m_op_cache m.
Proof.
  unfold alloc_free_nodes.
  pose proof (alloc_free_nodes_loop_spec n (m_nodes m) (m_free_nodes m)) as [H1 H2].
  destruct (alloc_free_nodes_loop n (m_nodes m) (m_free_nodes m)) as [nodes free].
  simpl in *. rewrite length_rev. auto.
Qed.

Lemma last_is_Some {A} (l : list A) : 0 < length l -> exists x, last l = Some x.
Proof.
  intros H. destruct (last l) eqn:E; eauto.
  apply last_None in E. subst. simpl in H. lia.
Qed.

Local Opaque gc alloc_free_nodes table_insert table_find.

(** C6 (as amended): when [insert_node] is called with a structurally new
    node and the free list is empty, it runs the collector unless
    [m_disable_gc] is set (seen here on the operation cache, which keeps only
    its pending entries); then, whether or not the collection freed slots, it
    raises out-of-memory if the current pool size is above
    [m_max_num_pdd_nodes], and otherwise grows the pool by half its size. *)
Theorem insert_node_on_empty_free_list n m :
  m_index n = 0 ->
  table_find n (m_node_table m) = None ->
  m_free_nodes m = [] ->
  2 <= length (m_nodes m) ->
  let size := length (m_nodes m) in
  let cache' := if m_disable_gc m then m_op_cache m
                else filter is_pending (m_op_cache m) in
  if (m_max_num_pdd_nodes m <? N.of_nat size)%N
  then exists m', insert_node n m = Err mem_out m' /\
                  m_op_cache m' = cache' /\ length (m_nodes m') = size
  else exists r m', insert_node n m = Ok r m' /\
                    m_op_cache m' = cache' /\ length (m_nodes m') = size + size / 2.
Proof.
  intros Hidx Hnew Hfree Hsize size cache'.
  assert (Tail : forall (e2 : pdd_node) (m2 : manager),
    length (m_nodes m2) = size -> m_op_cache m2 = cache' ->
    m_max_num_pdd_nodes m2 = m_max_num_pdd_nodes m ->
    let out :=
      if true && (m_max_num_pdd_nodes m2 <? N.of_nat (length (m_nodes m2)))%N
      then Err mem_out m2
      else
        let m3 := if true then alloc_free_nodes (length (m_nodes m2) / 2) m2 else m2 in
        match last (m_free_nodes m3) with
        | None => Err undefined m3
        | Some result =>
            let e3 := set_index result e2 in
            Ok result
              (with_is_new_node true
                 (with_nodes (<[result := e3]> (m_nodes m3))
                    (with_node_table (table_insert e3 (m_node_table m3))
                       (with_free_nodes (removelast (m_free_nodes m3)) m3))))
        end in
    if (m_max_num_pdd_nodes m <? N.of_nat size)%N
    then exists m', out = Err mem_out m' /\
                    m_op_cache m' = cache' /\ length (m_nodes m') = size
    else exists r m', out = Ok r m' /\
                      m_op_cache m' = cache' /\ length (m_nodes m') = size + size / 2).
  { intros e2 m2 Hl2 Hc2 Hm2. cbv zeta. rewrite Hm2, Hl2. cbn [andb].
    destruct (m_max_num_pdd_nodes m <? N.of_nat size)%N.
    - exists m2. auto.
    - destruct (alloc_free_nodes_spec (size / 2) m2) as (Ha & Hf & Hc).
      assert (Hpos : 0 < length (m_free_nodes (alloc_free_nodes (size / 2) m2))).
      { rewrite Hf. assert (1 <= size / 2) by (apply Nat.div_le_lower_bound; lia). lia. }
      destruct (last_is_Some _ Hpos) as [r ->].
      eexists _, _. split; [reflexivity|].
      cbn [m_op_cache m_nodes with_is_new_node with_nodes with_node_table with_free_nodes].
      rewrite length_insert, Hc, Ha, Hl2. auto. }
  unfold insert_node, insert_if_not_there2. rewrite Hnew, Hidx. cbn [negb Nat.eqb].
  cbn [m_free_nodes with_node_table]. rewrite Hfree. cbn [andb m_disable_gc].
  set (m1 := with_node_table _ m).
  destruct (gc_frame m1) as (Hlen & Hcache & _ & _ & Hmax).
  change (m_disable_gc m1) with (m_disable_gc m).
  subst cache'. destruct (m_disable_gc m); cbn [negb].
  - apply (Tail (set_refcount 0 n) m1); reflexivity.
  - destruct (match table_find n (m_node_table (gc m1)) with Some e => _ | None => _ end)
      as [e' t'].
    apply (Tail (set_refcount 0 e') (with_node_table (table_insert (set_refcount 0 e') t') (gc m1)));
      cbn [m_nodes m_op_cache m_max_num_pdd_nodes with_node_table]; auto.
Qed.

Local Transparent gc alloc_free_nodes table_insert table_find.

(** The full pool, evaluated once. *)
Lemma full_pool_facts :
  let m := full_pool in
  let r := insert_node (pdd_node3 0 1 1) m in
  m_free_nodes m = [] /\ m_free_nodes (gc m) = [] /\
  m_max_num_pdd_nodes m = 14%N /\ length (m_nodes m) = 14 /\
  table_find (pdd_node3 0 1 1) (m_node_table m) = None /\
  outcome r = None /\ length (m_nodes (state_of r)) = 21.
Proof. vm_compute. repeat split. Qed.

(** C6, the claim as stated fails.  On a pool of 14 slots that all hold live
    nodes, with the ceiling at 14, the collection frees nothing, growing by
    half would pass the ceiling, and the pool grows to 21 slots all the
    same. *)
Lemma insert_node_grows_past_ceiling :
  m_free_nodes full_pool = [] /\ m_free_nodes (gc full_pool) = [] /\
  m_max_num_pdd_nodes full_pool = 14%N /\ length (m_nodes full_pool) = 14 /\
  table_find (pdd_node3 0 1 1) (m_node_table full_pool) = None /\
  outcome (insert_node (pdd_node3 0 1 1) full_pool) = None /\
  length (m_nodes (state_of (insert_node (pdd_node3 0 1 1) full_pool))) = 21.
Proof. exact full_pool_facts. Qed.

Lemma insert_node_on_empty_free_list_witness :
  (m_index (pdd_node3 0 1 1) = 0 /\
   table_find (pdd_node3 0 1 1) (m_node_table full_pool) = None /\
   m_free_nodes full_pool = [] /\
   2 <= length (m_nodes full_pool)) /\
  let size := length (m_nodes full_pool) in
  let cache' := if m_disable_gc full_pool then m_op_cache full_pool
                else filter is_pending (m_op_cache full_pool) in
  if (m_max_num_pdd_nodes full_pool <? N.of_nat size)%N
  then exists m', insert_node (pdd_node3 0 1 1) full_pool = Err mem_out m' /\
                  m_op_cache m' = cache' /\ length (m_nodes m') = size
  else exists r m', insert_node (pdd_node3 0 1 1) full_pool = Ok r m' /\
                    m_op_cache m' = cache' /\ length (m_nodes m') = size + size / 2.
Proof.
  destruct full_pool_facts as (Hf & _ & _ & Hl & Ht & _).
  assert (H2 : 2 <= length (m_nodes full_pool)) by (rewrite Hl; lia).
  split; [auto|].
  exact (insert_node_on_empty_free_list (pdd_node3 0 1 1) full_pool eq_refl Ht Hf H2).
Defined.

(** ** The retry discipline *)

Lemma retry_loop_is_spec (w : M PDD) m : retry_loop 2 true w m = spec_retry_once w m.
Proof.
  unfold spec_retry_once. cbn [retry_loop].
  destruct (w m) as [r m1|[] m1]; cbn [negb]; reflexivity.
Qed.

Lemma apply_with_is_spec (w : M PDD) m :
  apply_with w m = scoped_push (spec_retry_once w) m.
Proof. unfold apply_with, scoped_push. rewrite retry_loop_is_spec. reflexivity. Qed.

(** C5: every entry point runs its recursive worker under the retry
    discipline of the specification: on out-of-memory it calls [try_gc] and
    runs the worker once more; an out-of-memory of the second run is passed
    on, and no other failure is caught.  In mod-2 mode [minus] has no worker
    to run. *)
Theorem entry_points_retry_once fuel a b m :
  (forall op, apply fuel a b op m
     = scoped_push (spec_retry_once (apply_rec fuel a b op)) m) /\
  minus fuel a m
    = (if m_mod2_semantics m then mk_pdd a m
       else (let* r := scoped_push (spec_retry_once (minus_rec fuel a)) in mk_pdd r) m) /\
  add fuel a b m
    = (let* r := scoped_push (spec_retry_once (apply_rec fuel a b pdd_add_op)) in
       mk_pdd r) m /\
  mul fuel a b m
    = (let* r := scoped_push (spec_retry_once (apply_rec fuel a b pdd_mul_op)) in
       mk_pdd r) m /\
  reduce fuel a b m
    = (let* r := scoped_push (spec_retry_once (apply_rec fuel a b pdd_reduce_op)) in
       mk_pdd r) m /\
  sub fuel a b m
    = (let* nb := minus fuel b in
       with_local nb
         (let* r := scoped_push (spec_retry_once (apply_rec fuel a nb pdd_add_op)) in
          mk_pdd r)) m.
Proof.
  assert (E : forall x y op m', apply fuel x y op m'
              = scoped_push (spec_retry_once (apply_rec fuel x y op)) m')
    by (intros; apply apply_with_is_spec).
  refine (conj _ (conj _ (conj _ (conj _ (conj _ _))))).
  - intros op. apply E.
  - unfold minus. destruct (m_mod2_semantics m); [reflexivity|].
    unfold bind. rewrite apply_with_is_spec. reflexivity.
  - unfold add, bind. rewrite E. reflexivity.
  - unfold mul, bind. rewrite E. reflexivity.
  - unfold reduce, bind. rewrite E. reflexivity.
  - unfold sub, bind. destruct (minus fuel b m) as [nb m1|e m1]; [|reflexivity].
    unfold with_local. rewrite E. reflexivity.
Qed.

(** The retry is exercised: on a small full pool whose powers of [v0] are
    dead and whose ceiling is below the pool size, the first run of the
    worker of [add(v0, 1)] raises out-of-memory and the entry point still
    returns. *)
Lemma apply_recovers_from_out_of_memory :
  outcome (apply_rec 10 2 1 pdd_add_op (state_of (full_manager 6 10 false empty_manager)))
    = Some mem_out /\
  outcome (apply 10 2 1 pdd_add_op (state_of (full_manager 6 10 false empty_manager)))
    = None.
Proof. split; vm_compute; reflexivity. Qed.

(** ** Common factors *)

Lemma spine_vars_end f m x acc acc' x' :
  spine_vars f m x acc = Some (acc', x') -> spine_end m x x'.
Proof.
  revert x acc. induction f as [|f IH]; intros x acc H; [discriminate|].
  simpl in H. destruct (is_val m x) eqn:E.
  - injection H as _ <-. constructor; auto.
  - apply spine_end_hi; eauto.
Qed.

Lemma common_factors_loop_coeffs f m x y hc p q pc0 qc0 c :
  common_factors_loop f m x y hc p q pc0 qc0 = Some c ->
  cf_found c = true ->
  exists la lb, leading_coeff m x la /\ leading_coeff m y lb /\
    (cf_pc c, cf_qc c) = reduced_pair (m_mod2_semantics m) la lb.
Proof.
  revert x y hc p q. induction f as [|f IH]; intros x y hc p q H Hfound; [discriminate|].
  cbn [common_factors_loop] in H.
  destruct (is_val m x || is_val m y) eqn:Ev.
  - destruct (negb hc).
    + injection H as <-. discriminate.
    + destruct (spine_vars (S f) m y q) as [[q' y']|] eqn:Ey; [|discriminate].
      destruct (spine_vars (S f) m x p) as [[p' x']|] eqn:Ex; [|discriminate].
      exists (val m x'), (val m y'). split; [|split].
      * exists x'. split; eauto using spine_vars_end.
      * exists y'. split; eauto using spine_vars_end.
      * unfold reduced_pair.
        destruct (negb (m_mod2_semantics m) && Rat.is_int (val m x') && Rat.is_int (val m y'));
          injection H as <-; reflexivity.
  - apply orb_false_iff in Ev as [Ex Ey].
    destruct (level m x =? level m y).
    + destruct (IH _ _ _ _ _ H Hfound) as (la & lb & (x' & Hx & Vx) & (y' & Hy & Vy) & E).
      exists la, lb. repeat split; auto.
      * exists x'. split; auto. apply spine_end_hi; auto.
      * exists y'. split; auto. apply spine_end_hi; auto.
    + destruct (level m y <? level m x).
      * destruct (IH _ _ _ _ _ H Hfound) as (la & lb & (x' & Hx & Vx) & Hb & E).
        exists la, lb. repeat split; auto.
        exists x'. split; auto. apply spine_end_hi; auto.
      * destruct (IH _ _ _ _ _ H Hfound) as (la & lb & Ha & (y' & Hy & Vy) & E).
        exists la, lb. repeat split; auto.
        exists y'. split; auto. apply spine_end_hi; auto.
Qed.

(** C8 (as amended): whenever [common_factors] returns true in Q-mode, the
    returned [pc] and [qc] are the leading coefficients of [a] and [b], each
    divided by the gcd of the two when both are integers, and unchanged when
    one of them is not an integer. *)
Theorem common_factors_coefficients fuel m a b pc0 qc0 c :
  m_mod2_semantics m = false ->
  common_factors fuel m a b pc0 qc0 = Some c ->
  cf_found c = true ->
  exists la lb, leading_coeff m a la /\ leading_coeff m b lb /\
    (cf_pc c, cf_qc c) =
      if Rat.is_int la && Rat.is_int lb
      then (Rat.div la (Rat.gcd la lb), Rat.div lb (Rat.gcd la lb))
      else (la, lb).
Proof.
  intros Hq H Hfound.
  destruct (common_factors_loop_coeffs _ _ _ _ _ _ _ _ _ _ H Hfound)
    as (la & lb & Ha & Hb & E).
  exists la, lb. unfold reduced_pair in E. rewrite Hq in E. auto.
Qed.

Lemma common_factors_coefficients_witness :
  (m_mod2_semantics c8_state = false /\
   common_factors 64 c8_state 7 9 0%Q 0%Q = Some (mk_factors true [] [] 2%Q 3%Q)) /\
  exists la lb, leading_coeff c8_state 7 la /\ leading_coeff c8_state 9 lb /\
    (2%Q, 3%Q) =
      if Rat.is_int la && Rat.is_int lb
      then (Rat.div la (Rat.gcd la lb), Rat.div lb (Rat.gcd la lb))
      else (la, lb).
Proof.
  assert (H1 : m_mod2_semantics c8_state = false) by (vm_compute; reflexivity).
  assert (H2 : common_factors 64 c8_state 7 9 0%Q 0%Q = Some (mk_factors true [] [] 2%Q 3%Q))
    by (vm_compute; reflexivity).
  split; [split; assumption|].
  exact (common_factors_coefficients 64 c8_state 7 9 0%Q 0%Q _ H1 H2 eq_refl).
Defined.

(** C8, the claim as stated fails on leading coefficients that are not
    integers: for [a = b = (2/3) * v0] the returned [pc] is 2/3, not 2/3
    divided by the gcd of the two leading coefficients. *)
Lemma common_factors_keeps_fractions :
  root_of (two_thirds_v0 empty_manager) = Some 7 /\
  m_mod2_semantics two_thirds_state = false /\
  leading_coeff two_thirds_state 7 (2 # 3)%Q /\
  common_factors 64 two_thirds_state 7 7 0%Q 0%Q
    = Some (mk_factors true [] [] (2 # 3)%Q (2 # 3)%Q) /\
  (2 # 3)%Q <> Rat.div (2 # 3)%Q (Rat.gcd (2 # 3)%Q (2 # 3)%Q).
Proof.
  refine (conj _ (conj _ (conj _ (conj _ _)))).
  - vm_compute; reflexivity.
  - vm_compute; reflexivity.
  - exists 6. split.
    + apply (spine_vars_end 5 two_thirds_state 7 [] [0]). vm_compute; reflexivity.
    + vm_compute; reflexivity.
  - vm_compute; reflexivity.
  - vm_compute. discriminate.
Qed.

(** ** Commutativity of the product *)

(** C9, evaluated: in mod-2 mode [mul(v0, v0 + 1)] takes the equal-level arm,
    which reads the evaluation stack three entries down while it holds one
    entry; no handle is returned.  In Q-mode both products return node 7. *)
Theorem mul_mod2_equal_levels_reads_outside_stack :
  outcome (both_products true empty_manager) = Some undefined /\
  outcome (both_products false empty_manager) = None.
Proof. split; vm_compute; reflexivity. Qed.

(** ** Variable nodes and reordering *)

(** C7, evaluated: after [set_level2var] with the permutation [1; 0; 2; 3] the
    pinned node of variable 0 is still node 2 at level 0, while
    [m_var2level[0]] is 1; the node now reads as the variable 1. *)
Theorem set_level2var_leaves_node_levels :
  m_var2pdd reordered_manager !! 0 = Some 2 /\
  level reordered_manager 2 = 0 /\
  m_var2level reordered_manager !! 0 = Some 1 /\
  to_monomials 4 reordered_manager 2 = Some [(1%Q, [1])].
Proof. refine (conj _ (conj _ (conj _ _))); vm_compute; reflexivity. Qed.

(** ** Subtraction *)

Lemma root_of_with_local (h : PDD) (c : M PDD) m :
  root_of (with_local h c m) = root_of (c m).
Proof. unfold with_local. destruct (c m); reflexivity. Qed.

Lemma alloc_free_nodes_loop_closed n : forall nodes free,
  alloc_free_nodes_loop n nodes free =
  (nodes ++ map (fun i => set_index i pdd_node0) (seq (length nodes) n),
   free ++ seq (length nodes) n).
Proof.
  induction n as [|n IH]; intros nodes free; cbn [alloc_free_nodes_loop seq map].
  - rewrite !app_nil_r. reflexivity.
  - rewrite IH, length_app. cbn [length]. rewrite Nat.add_1_r, <- !app_assoc. reflexivity.
Qed.

(** ** Reference counts matter only through liveness *)

Lemma node_sim_refl n : node_sim n n.
Proof. repeat split. Qed.

Lemma sim_refl m : sim m m.
Proof.
  constructor; try reflexivity; apply Forall_Forall2_diag, Forall_forall;
    intros; apply node_sim_refl.
Qed.

Ltac sim_fields H :=
  destruct H; constructor;
  cbn [m_nodes m_node_table m_values m_free_values m_mpq_table m_freeze_value
       m_free_nodes m_op_cache m_pdd_stack m_var2pdd m_var2level m_level2var
       m_max_num_pdd_nodes m_disable_gc m_is_new_node m_mod2_semantics
       with_nodes with_node_table with_values with_free_values with_mpq_table
       with_freeze_value with_free_nodes with_op_cache with_pdd_stack with_vars
       with_max_num_nodes with_disable_gc with_is_new_node set_mod2_semantics];
  try assumption; try congruence.

Lemma sim_node m m' p : sim m m' -> node_sim (node m p) (node m' p).
Proof.
  intros H. unfold node. pose proof (sim_nodes _ _ H) as Hn.
  destruct (m_nodes m !! p) as [n|] eqn:E.
  - destruct (Forall2_lookup_l _ _ _ _ _ Hn E) as (n' & -> & Hs). exact Hs.
  - apply lookup_ge_None in E. rewrite (Forall2_length _ _ _ Hn) in E.
    apply lookup_ge_None in E. rewrite E. apply node_sim_refl.
Qed.

Lemma sim_lo m m' p : sim m m' -> lo m p = lo m' p.
Proof. intros H. apply (sim_node _ _ p H). Qed.
Lemma sim_hi m m' p : sim m m' -> hi m p = hi m' p.
Proof. intros H. apply (sim_node _ _ p H). Qed.
Lemma sim_level m m' p : sim m m' -> level m p = level m' p.
Proof. intros H. apply (sim_node _ _ p H). Qed.
Lemma sim_is_val m m' p : sim m m' -> is_val m p = is_val m' p.
Proof. intros H. unfold is_val. rewrite (sim_hi _ _ p H). reflexivity. Qed.
Lemma sim_val m m' p : sim m m' -> val m p = val m' p.
Proof. intros H. unfold val. rewrite (sim_lo _ _ p H), (sim_values _ _ H). reflexivity. Qed.
Lemma sim_var m m' p : sim m m' -> var m p = var m' p.
Proof. intros H. unfold var. rewrite (sim_level _ _ p H), (sim_level2var _ _ H). reflexivity. Qed.
Lemma sim_length m m' : sim m m' -> length (m_nodes m) = length (m_nodes m').
Proof. intros H. apply (Forall2_length _ _ _ (sim_nodes _ _ H)). Qed.

(** *** The monad *)

Lemma respects_ret {A} (a : A) : respects (ret a).
Proof. intros m m' H. split; [reflexivity | exact H]. Qed.

Lemma respects_throw {A} e : respects (@throw A e).
Proof. intros m m' H. split; [reflexivity | exact H]. Qed.

Lemma respects_bind {A B} (c : M A) (k : A -> M B) :
  respects c -> (forall a, respects (k a)) -> respects (bind c k).
Proof.
  intros Hc Hk m m' H. unfold bind. specialize (Hc m m' H).
  destruct (c m) as [a m1|e m1], (c m') as [a' m1'|e' m1']; try contradiction.
  - destruct Hc as [<- Hs]. apply Hk, Hs.
  - exact Hc.
Qed.

Lemma respects_gets {A} (f : manager -> A) :
  (forall m m', sim m m' -> f m = f m') -> respects (gets f).
Proof. intros Hf m m' H. split; [apply Hf, H | exact H]. Qed.

Lemma respects_modify (f : manager -> manager) :
  (forall m m', sim m m' -> sim (f m) (f m')) -> respects (modify f).
Proof. intros Hf m m' H. split; [reflexivity | apply Hf, H]. Qed.

Lemma respects_push b : respects (push b).
Proof. apply respects_modify. intros m m' H. sim_fields H. Qed.

Lemma respects_pop n : respects (pop n).
Proof. apply respects_modify. intros m m' H. sim_fields H. Qed.

Lemma respects_read i : respects (read i).
Proof.
  intros m m' H. unfold read. rewrite <- (sim_pdd_stack _ _ H).
  destruct (_ <=? _); [destruct (_ !! _)|]; split; auto.
Qed.

Lemma respects_cache_probe p q op : respects (cache_probe p q op).
Proof.
  intros m m' H. unfold cache_probe. rewrite <- (sim_op_cache _ _ H).
  destruct (cache_find _ _ _ _) as [e|]; [destruct (m_result e)|];
    (split; [reflexivity|]); try exact H.
  sim_fields H.
Qed.

Lemma respects_cache_store p q op r : respects (cache_store p q op r).
Proof. apply respects_modify. intros m m' H. sim_fields H. Qed.

Lemma respects_lift_option {A} (f : manager -> option A) :
  (forall m m', sim m m' -> f m = f m') -> respects (fun m => lift_option (f m) m).
Proof.
  intros Hf m m' H. rewrite <- (Hf m m' H). destruct (f m); split; auto.
Qed.

(** *** The node table *)

Lemma same_content_sim a b b' : node_sim b b' -> same_content a b = same_content a b'.
Proof. intros (Hl & Hlo & Hhi & _). unfold same_content. rewrite Hl, Hlo, Hhi. reflexivity. Qed.

Lemma same_content_sim_l a a' b : node_sim a a' -> same_content a b = same_content a' b.
Proof. intros (Hl & Hlo & Hhi & _). unfold same_content. rewrite Hl, Hlo, Hhi. reflexivity. Qed.

Lemma table_find_sim n t t' :
  Forall2 node_sim t t' ->
  match table_find n t, table_find n t' with
  | Some e, Some e' => node_sim e e'
  | None, None => True
  | _, _ => False
  end.
Proof.
  induction 1 as [|e e' t t' He Ht IH]; cbn [table_find]; [exact I|].
  rewrite <- (same_content_sim n e e' He).
  destruct (same_content n e); [exact He | exact IH].
Qed.

Lemma table_insert_sim n n' t t' :
  node_sim n n' -> Forall2 node_sim t t' ->
  Forall2 node_sim (table_insert n t) (table_insert n' t').
Proof.
  intros Hn. induction 1 as [|e e' t t' He Ht IH]; cbn [table_insert].
  - constructor; [exact Hn | constructor].
  - rewrite <- (same_content_sim_l n n' e' Hn), <- (same_content_sim n e e' He).
    destruct (same_content n e); constructor; assumption.
Qed.

Lemma set_refcount_sim rc n n' : node_sim n n' -> node_sim (set_refcount rc n) (set_refcount rc n').
Proof. intros (?&?&?&?&?). repeat split; assumption. Qed.

Lemma set_index_sim i n n' : node_sim n n' -> node_sim (set_index i n) (set_index i n').
Proof. intros (?&?&?&?&?). repeat split; assumption. Qed.

Lemma set_internal_sim n n' : node_sim n n' -> node_sim (set_internal n) (set_internal n').
Proof. intros (?&?&?&?&?). repeat split; assumption. Qed.

(** *** alloc_free_nodes *)

Lemma alloc_free_nodes_sim n m m' : sim m m' -> sim (alloc_free_nodes n m) (alloc_free_nodes n m').
Proof.
  intros H. unfold alloc_free_nodes. rewrite !alloc_free_nodes_loop_closed.
  rewrite <- (sim_length _ _ H), <- (sim_free_nodes _ _ H).
  pose proof (sim_nodes _ _ H) as Hn.
  sim_fields H.
  apply Forall2_app; [assumption|].
  apply Forall_Forall2_diag, Forall_forall. intros; apply node_sim_refl.
Qed.

(** *** Garbage collection *)

Lemma ids_down_sim m m' : sim m m' -> ids_down m = ids_down m'.
Proof. intros H. unfold ids_down. rewrite (sim_length _ _ H). reflexivity. Qed.

Lemma rc_roots_sim m m' : sim m m' -> rc_roots m = rc_roots m'.
Proof.
  intros H. unfold rc_roots. rewrite <- (ids_down_sim _ _ H).
  induction (ids_down m) as [|i l IH]; [reflexivity|].
  rewrite !filter_cons.
  destruct (sim_node _ _ i H) as (_ & _ & _ & _ & Hrc).
  rewrite IH.
  destruct (decide (0 <? m_refcount (node m i))) as [Ht|Hf];
    destruct (decide (0 <? m_refcount (node m' i))) as [Ht'|Hf']; try reflexivity.
  - rewrite Hrc in Ht. contradiction.
  - rewrite <- Hrc in Ht'. contradiction.
Qed.

Lemma mark_loop_sim m m' : sim m m' ->
  forall fuel todo r, mark_loop fuel m todo r = mark_loop fuel m' todo r.
Proof.
  intros H. induction fuel as [|fuel IH]; intros todo r; [reflexivity|].
  destruct todo as [|p todo]; [reflexivity|]. cbn [mark_loop].
  rewrite <- (sim_is_val _ _ p H), <- (sim_lo _ _ p H), <- (sim_hi _ _ p H).
  destruct (is_val m p); [apply IH|].
  destruct (negb (reach r (lo m p))); destruct (negb (reach _ (hi m p))); apply IH.
Qed.

Lemma gc_reachable_sim m m' : sim m m' -> gc_reachable m = gc_reachable m'.
Proof.
  intros H. unfold gc_reachable, gc_roots.
  rewrite <- (rc_roots_sim _ _ H), <- (sim_pdd_stack _ _ H), <- (sim_length _ _ H).
  apply mark_loop_sim, H.
Qed.

Lemma free_slot_sim i m m' : sim m m' -> sim (free_slot i m) (free_slot i m').
Proof.
  intros H. unfold free_slot. pose proof (sim_node _ _ i H) as Hi.
  sim_fields H. apply Forall2_insert; [assumption | apply set_internal_sim, Hi].
Qed.

Lemma sweep_step_sim r i m m' : sim m m' -> sim (sweep_step r m i) (sweep_step r m' i).
Proof.
  intros H. unfold sweep_step.
  rewrite <- (sim_is_val _ _ i H), <- (sim_val _ _ i H), <- (sim_freeze_value _ _ H),
          <- (sim_mpq_table _ _ H), <- (sim_free_values _ _ H).
  destruct (reach r i); [exact H|].
  destruct (is_val m i); [|apply free_slot_sim, H].
  destruct (Rat.eqb _ _); [exact H|].
  apply free_slot_sim. sim_fields H.
Qed.

Lemma sweep_sim r ids : forall m m', sim m m' ->
  sim (fold_left (sweep_step r) ids m) (fold_left (sweep_step r) ids m').
Proof.
  induction ids as [|i ids IH]; intros m m' H; [exact H|].
  cbn [fold_left]. apply IH, sweep_step_sim, H.
Qed.

Lemma rebuild_table_sim r m m' :
  sim m m' -> Forall2 node_sim (rebuild_table r m) (rebuild_table r m').
Proof.
  intros H. unfold rebuild_table. rewrite <- (ids_down_sim _ _ H).
  assert (Hg : forall l t t', Forall2 node_sim t t' ->
    Forall2 node_sim
      (fold_left (fun t i => if reach r i then table_insert (node m i) t else t) l t)
      (fold_left (fun t i => if reach r i then table_insert (node m' i) t else t) l t')).
  { induction l as [|i l IH]; intros t t' Ht; [exact Ht|].
    cbn [fold_left]. apply IH.
    destruct (reach r i); [|exact Ht].
    apply table_insert_sim; [apply sim_node, H | exact Ht]. }
  apply Hg. constructor.
Qed.

Lemma gc_sim m m' : sim m m' -> sim (gc m) (gc m').
Proof.
  intros H. unfold gc.
  assert (H0 : sim (with_free_nodes [] m) (with_free_nodes [] m')) by (sim_fields H).
  rewrite <- (gc_reachable_sim _ _ H0), <- (ids_down_sim _ _ H0).
  set (r := gc_reachable (with_free_nodes [] m)).
  pose proof (sweep_sim r (ids_down (with_free_nodes [] m)) _ _ H0) as H1.
  set (m1 := fold_left _ _ (with_free_nodes [] m)) in *.
  set (m1' := fold_left _ _ (with_free_nodes [] m')) in *.
  cbv zeta.
  assert (H3 : sim (with_op_cache (filter is_pending (m_op_cache
                     (with_free_nodes (rev (sort (m_free_nodes m1))) m1)))
                     (with_free_nodes (rev (sort (m_free_nodes m1))) m1))
                   (with_op_cache (filter is_pending (m_op_cache
                     (with_free_nodes (rev (sort (m_free_nodes m1'))) m1')))
                     (with_free_nodes (rev (sort (m_free_nodes m1'))) m1'))).
  { clear H0. sim_fields H1. }
  pose proof (rebuild_table_sim r _ _ H3) as Ht.
  clear H0 H1. sim_fields H3.
Qed.

Lemma try_gc_sim m m' : sim m m' -> sim (try_gc m) (try_gc m').
Proof. intros H. unfold try_gc. pose proof (gc_sim _ _ H) as Hg. sim_fields Hg. Qed.

(** *** Node creation *)

Lemma insert_node_eq n m :
  insert_node n m =
  insert_node_tail n (fst (insert_if_not_there2 n (m_node_table m)))
    (snd (insert_if_not_there2 n (m_node_table m))) m.
Proof.
  unfold insert_node, insert_node_tail, insert_node_finish.
  destruct (insert_if_not_there2 n (m_node_table m)) as [e t]. cbn [fst snd].
  destruct (negb (m_index e =? 0)); [reflexivity|]. cbv zeta.
  destruct (_ && negb _); [|reflexivity].
  destruct (insert_if_not_there2 n _) as [e' t']. reflexivity.
Qed.

Lemma insert_if_not_there2_sim n t t' :
  Forall2 node_sim t t' ->
  node_sim (fst (insert_if_not_there2 n t)) (fst (insert_if_not_there2 n t')) /\
  Forall2 node_sim (snd (insert_if_not_there2 n t)) (snd (insert_if_not_there2 n t')).
Proof.
  intros Ht. unfold insert_if_not_there2.
  pose proof (table_find_sim n _ _ Ht) as Hf.
  destruct (table_find n t) as [e|], (table_find n t') as [e'|]; try contradiction;
    cbn [fst snd].
  - split; assumption.
  - split; [apply node_sim_refl | apply table_insert_sim; [apply node_sim_refl | exact Ht]].
Qed.

Lemma insert_node_finish_sim dg e e' m m' :
  node_sim e e' -> sim m m' ->
  res_sim (insert_node_finish dg e m) (insert_node_finish dg e' m').
Proof.
  intros He H. unfold insert_node_finish.
  rewrite <- (sim_max _ _ H), <- (sim_length _ _ H).
  destruct (dg && _); [split; [reflexivity | exact H]|].
  assert (H3 : sim (if dg then alloc_free_nodes (length (m_nodes m) / 2) m else m)
                   (if dg then alloc_free_nodes (length (m_nodes m) / 2) m' else m'))
    by (destruct dg; [apply alloc_free_nodes_sim, H | exact H]).
  cbv zeta.
  set (m3 := if dg then _ else m) in *. set (m3' := if dg then _ else m') in *.
  rewrite <- (sim_free_nodes _ _ H3).
  destruct (last (m_free_nodes m3)) as [r|]; [|split; [reflexivity | exact H3]].
  split; [reflexivity|].
  pose proof (sim_nodes _ _ H3) as Hn. pose proof (sim_node_table _ _ H3) as Ht.
  clear H. sim_fields H3.
  - apply Forall2_insert; [assumption | apply set_index_sim, He].
  - apply table_insert_sim; [apply set_index_sim, He | assumption].
Qed.

Lemma insert_node_tail_sim n e e' t t' m m' :
  node_sim e e' -> Forall2 node_sim t t' -> sim m m' ->
  res_sim (insert_node_tail n e t m) (insert_node_tail n e' t' m').
Proof.
  intros He Ht H. unfold insert_node_tail.
  destruct He as (Hl & Hlo & Hhi & Hi & Hrc). rewrite <- Hi.
  assert (He : node_sim e e') by (repeat split; assumption).
  destruct (negb (m_index e =? 0)).
  { split; [reflexivity|]. sim_fields H. }
  cbv zeta.
  assert (H1 : sim (with_node_table (table_insert (set_refcount 0 e) t) m)
                   (with_node_table (table_insert (set_refcount 0 e') t') m')).
  { pose proof (table_insert_sim _ _ _ _ (set_refcount_sim 0 _ _ He) Ht). sim_fields H. }
  rewrite <- (sim_free_nodes _ _ H1), <- (sim_disable_gc _ _ H1).
  destruct (_ && negb _).
  - pose proof (gc_sim _ _ H1) as Hg.
    destruct (insert_if_not_there2_sim n _ _ (sim_node_table _ _ Hg)) as [Hf Hs].
    apply insert_node_finish_sim; [apply set_refcount_sim, Hf|].
    pose proof (table_insert_sim _ _ _ _ (set_refcount_sim 0 _ _ Hf) Hs).
    clear H H1. sim_fields Hg.
  - apply insert_node_finish_sim; [apply set_refcount_sim, He | exact H1].
Qed.

Lemma respects_insert_node n : respects (insert_node n).
Proof.
  intros m m' H. rewrite !insert_node_eq.
  destruct (insert_if_not_there2_sim n _ _ (sim_node_table _ _ H)) as [Hf Hs].
  apply insert_node_tail_sim; assumption.
Qed.

Lemma respects_make_node lvl l h : respects (make_node lvl l h).
Proof.
  unfold make_node. apply respects_bind.
  - apply respects_modify. intros m m' H. sim_fields H.
  - intros _. destruct (is_zero h); [apply respects_ret | apply respects_insert_node].
Qed.

Lemma respects_init_value r : respects (init_value r).
Proof.
  intros m m' H. unfold init_value.
  rewrite <- (sim_free_values _ _ H), <- (sim_values _ _ H).
  set (p := match last (m_free_values m) with None => _ | Some v => _ end).
  set (p' := match last (m_free_values m) with None => _ | Some v => _ end).
  assert (Hp : fst p = fst p' /\ sim (snd p) (snd p')).
  { unfold p, p'. destruct (last (m_free_values m)); cbn [fst snd];
      (split; [reflexivity|]); sim_fields H. }
  destruct p as [vi m1], p' as [vi' m1']. cbn [fst snd] in Hp. destruct Hp as [<- H1].
  assert (H2 : sim (with_freeze_value r m1) (with_freeze_value r m1')) by (sim_fields H1).
  pose proof (respects_insert_node (pdd_node1 vi) _ _ H2) as Hi.
  destruct (insert_node _ (with_freeze_value r m1)) as [a m3|e m3],
           (insert_node _ (with_freeze_value r m1')) as [a' m3'|e' m3']; try contradiction.
  - destruct Hi as [<- H3]. split; [reflexivity|]. sim_fields H3.
  - exact Hi.
Qed.

Lemma respects_imk_val_rec d : forall r, respects (imk_val_rec d r).
Proof.
  induction d as [|d IH]; intros r m m' H; cbn [imk_val_rec];
    rewrite <- (sim_mod2 _ _ H), <- (sim_mpq_table _ _ H);
    (destruct (Rat.is_zero r); [split; [reflexivity | exact H]|]);
    (destruct (Rat.is_one r); [split; [reflexivity | exact H]|]);
    destruct (m_mod2_semantics m).
  - split; [reflexivity | exact H].
  - destruct (mpq_find r _); [split; [reflexivity | exact H]|].
    apply respects_bind; [apply respects_init_value | intros; apply respects_ret | exact H].
  - apply IH, H.
  - destruct (mpq_find r _); [split; [reflexivity | exact H]|].
    apply respects_bind; [apply respects_init_value | intros; apply respects_ret | exact H].
Qed.

Lemma respects_imk_val r : respects (imk_val r).
Proof. apply respects_imk_val_rec. Qed.

(** *** The workers *)

Lemma apply_pre_sim m m' p q op : sim m m' -> apply_pre m p q op = apply_pre m' p q op.
Proof.
  intros H. unfold apply_pre.
  rewrite <- !(sim_is_val _ _ _ H), <- !(sim_val _ _ _ H), <- !(sim_level _ _ _ H).
  reflexivity.
Qed.

Lemma lm_divides_sim m m' : sim m m' ->
  forall f p q, lm_divides f m p q = lm_divides f m' p q.
Proof.
  intros H. induction f as [|f IH]; intros p q; [reflexivity|].
  rewrite !lm_divides_S.
  rewrite <- !(sim_is_val _ _ _ H), <- !(sim_level _ _ _ H), <- !(sim_hi _ _ _ H), !IH.
  reflexivity.
Qed.

Lemma respects_retry_loop n (w : M PDD) :
  respects w -> forall first, respects (retry_loop n first w).
Proof.
  intros Hw. induction n as [|n IH]; intros first m m' H; cbn [retry_loop].
  - split; [reflexivity | exact H].
  - specialize (Hw m m' H).
    destruct (w m) as [a m1|e m1], (w m') as [a' m1'|e' m1']; try contradiction.
    + exact Hw.
    + destruct Hw as [<- H1]. destruct e; try (split; [reflexivity | exact H1]).
      destruct (negb first); [split; [reflexivity | apply try_gc_sim, H1]|].
      apply IH, try_gc_sim, H1.
Qed.

Lemma respects_scoped_push {A} (c : M A) : respects c -> respects (scoped_push c).
Proof.
  intros Hc m m' H. unfold scoped_push. rewrite <- (sim_pdd_stack _ _ H).
  specialize (Hc m m' H).
  destruct (c m) as [a m1|e m1], (c m') as [a' m1'|e' m1']; try contradiction;
    destruct Hc as [<- H1]; (split; [reflexivity|]); sim_fields H1.
Qed.

Lemma respects_apply_with (w : M PDD) : respects w -> respects (apply_with w).
Proof. intros Hw. apply respects_scoped_push, respects_retry_loop, Hw. Qed.

Ltac sim_gets :=
  let m := fresh "m" in let m' := fresh "m'" in let H := fresh "H" in
  apply respects_gets; intros m m' H;
  rewrite <- ?(sim_is_val _ _ _ H), <- ?(sim_level _ _ _ H), <- ?(sim_lo _ _ _ H),
          <- ?(sim_hi _ _ _ H), <- ?(sim_var _ _ _ H), <- ?(sim_var2pdd _ _ H),
          <- ?(sim_mod2 _ _ H);
  reflexivity.

Ltac sim_step :=
  match goal with
  | |- respects (bind _ _) => apply respects_bind; [|intros ?]
  | |- respects (if ?b then _ else _) => destruct b
  | |- respects (match ?o with Some _ => _ | None => _ end) => destruct o
  | |- respects (ret _) => apply respects_ret
  | |- respects (throw _) => apply respects_throw
  | |- respects (gets _) => sim_gets
  | |- respects (push _) => apply respects_push
  | |- respects (pop _) => apply respects_pop
  | |- respects (read _) => apply respects_read
  | |- respects (cache_probe _ _ _) => apply respects_cache_probe
  | |- respects (cache_store _ _ _ _) => apply respects_cache_store
  | |- respects (make_node _ _ _) => apply respects_make_node
  | |- respects (imk_val _) => apply respects_imk_val
  | |- respects (finish _ _ _ _ _) => unfold finish
  | |- respects (apply_with _) => apply respects_apply_with
  | H : forall p q op, respects (?f p q op) |- respects (?f _ _ _) => apply H
  | H : forall p q, respects (?f p q) |- respects (?f _ _) => apply H
  end.

Section BodySim.
Variables (ar : PDD -> PDD -> pdd_op -> M PDD) (rom ltq : PDD -> PDD -> M PDD).
Hypothesis Har : forall p q op, respects (ar p q op).
Hypothesis Hrom : forall p q, respects (rom p q).
Hypothesis Hltq : forall p q, respects (ltq p q).

Lemma respects_apply_rec_body p q op : respects (apply_rec_body ar rom p q op).
Proof.
  intros m m' H. unfold apply_rec_body. rewrite <- (apply_pre_sim _ _ p q op H).
  destruct (apply_pre m p q op) as [c|p1 q1] eqn:E.
  - assert (Hc : respects c); [|apply Hc, H].
    unfold apply_pre in E.
    destruct op;
      repeat match type of E with
             | (if ?b then _ else _) = _ => destruct b
             end;
      inversion E; subst c; repeat sim_step.
  - revert m m' H E.
    match goal with
    | |- forall m m', sim m m' -> _ -> res_sim (?c m) (?c m') =>
        intros m m' H _; revert m m' H; change (respects c)
    end.
    destruct op; cbv zeta; repeat sim_step.
Qed.

Lemma respects_reduce_on_match_body f a b : respects (reduce_on_match_body ar rom ltq f a b).
Proof.
  unfold reduce_on_match_body. apply respects_bind.
  - apply respects_lift_option. intros m m' H. apply lm_divides_sim, H.
  - intros d. repeat sim_step.
Qed.

Lemma respects_lt_quotient_body p q : respects (lt_quotient_body ar ltq p q).
Proof.
  assert (Hft : forall h,
    respects (let* t := ltq p h in
              let* x := gets (fun m => default 0 (m_var2pdd m !! var m q)) in
              apply_with (ar x t pdd_mul_op))).
  { intros h. repeat sim_step. }
  intros m m' H. unfold lt_quotient_body. cbv zeta.
  rewrite <- !(sim_is_val _ _ _ H), <- !(sim_level _ _ _ H), <- !(sim_hi _ _ _ H),
          <- !(sim_val _ _ _ H).
  destruct (is_val m p); [destruct (is_val m q)|destruct (_ =? _)].
  - apply respects_imk_val, H.
  - apply (Hft (hi m q)), H.
  - apply Hltq, H.
  - apply (Hft (hi m q)), H.
Qed.

End BodySim.

Lemma respects_workers f :
  (forall p q op, respects (apply_rec f p q op)) /\
  (forall a b, respects (reduce_on_match f a b)) /\
  (forall p q, respects (lt_quotient f p q)).
Proof.
  induction f as [|f (IHa & IHr & IHl)].
  - split; [|split]; [intros p q op | intros a b | intros p q]; apply respects_throw.
  - split; [|split]; [intros p q op | intros a b | intros p q];
      cbn [apply_rec reduce_on_match lt_quotient].
    + apply respects_apply_rec_body; assumption.
    + apply (respects_reduce_on_match_body _ _ _ IHa IHr IHl).
    + apply respects_lt_quotient_body; assumption.
Qed.

Lemma respects_apply f p q op : respects (apply f p q op).
Proof. apply respects_apply_with, respects_workers. Qed.

Lemma res_sim_root_of (r r' : result PDD) : res_sim r r' -> root_of r = root_of r'.
Proof. destruct r, r'; cbn; intros H; try contradiction; destruct H; congruence. Qed.

Lemma res_sim_outcome {A} (r r' : result A) : res_sim r r' -> outcome r = outcome r'.
Proof. destruct r, r'; cbn; intros H; try contradiction; destruct H; congruence. Qed.

Lemma inc_ref_live_sim b m :
  0 < m_refcount (node m b) -> sim m (state_of (inc_ref b m)).
Proof.
  intros Hlive. unfold inc_ref, modify, state_of.
  destruct (_ =? max_rc); [apply sim_refl|].
  pose proof (sim_refl m) as H.
  assert (Hn : Forall2 node_sim (m_nodes m)
                 (<[b := set_refcount (S (m_refcount (node m b))) (node m b)]> (m_nodes m))).
  { destruct (m_nodes m !! b) as [n|] eqn:E.
    - rewrite <- (list_insert_id _ _ _ E) at 1.
      apply Forall2_insert; [apply (sim_nodes _ _ H)|].
      unfold node in *. rewrite E in *. cbn [default from_option id] in *.
      repeat split. cbn [m_refcount set_refcount].
      destruct (m_refcount n); [lia | reflexivity].
    - rewrite list_insert_ge by (apply lookup_ge_None; exact E). apply (sim_nodes _ _ H). }
  sim_fields H.
Qed.

(** C10: [sub(a, b)] returns the node of [add(a, minus(b))].  In mod-2 mode,
    where [minus] hands back its argument, it returns the node of
    [add(a, b)] run on the caller's manager, and fails exactly as that sum
    fails: the extra reference which [sub] holds on [b] during the sum does
    not change the run, because [b], the root of a handle, is referenced
    already. *)
Theorem sub_is_add_of_minus fuel a b m :
  root_of (sub fuel a b m) = root_of ((let* nb := minus fuel b in add fuel a nb) m) /\
  (m_mod2_semantics m = true -> 0 < m_refcount (node m b) ->
   root_of (sub fuel a b m) = root_of (add fuel a b m) /\
   outcome (sub fuel a b m) = outcome (add fuel a b m)).
Proof.
  split.
  - unfold sub, bind at 1 3. destruct (minus fuel b m) as [nb m1|e m1]; [|reflexivity].
    rewrite root_of_with_local. reflexivity.
  - intros H2 Hlive.
    assert (E : sub fuel a b m =
                with_local b (let* r := apply fuel a b pdd_add_op in mk_pdd r)
                  (state_of (inc_ref b m))).
    { unfold sub, bind at 1, minus. rewrite H2. reflexivity. }
    rewrite E. clear E.
    pose proof (respects_apply fuel a b pdd_add_op _ _ (inc_ref_live_sim b m Hlive)) as Ha.
    unfold with_local, add, bind.
    destruct (apply fuel a b pdd_add_op m) as [r m1|e m1],
             (apply fuel a b pdd_add_op _) as [r' m1'|e' m1']; try contradiction;
      destruct Ha as [<- _]; split; reflexivity.
Qed.

Lemma sub_is_add_of_minus_witness :
  (m_mod2_semantics c10_state = true /\ 0 < m_refcount (node c10_state 6)) /\
  root_of (sub 8 2 6 c10_state) = root_of (add 8 2 6 c10_state) /\
  outcome (sub 8 2 6 c10_state) = outcome (add 8 2 6 c10_state).
Proof.
  assert (H1 : m_mod2_semantics c10_state = true) by (vm_compute; reflexivity).
  assert (H2 : 0 < m_refcount (node c10_state 6)) by (vm_compute; apply le_n).
  split; [exact (conj H1 H2)|].
  exact (proj2 (sub_is_add_of_minus 8 2 6 c10_state) H1 H2).
Defined.

(** ** Seed scenario 3: the S-polynomial and the order [lt] *)

(** C3, evaluated on seed scenario 3: for [a = v2*v1 + v0] and
    [b = v2*v0 + 1], [try_spoly] returns [v0*v0 - v1], whose leading term is
    cancelled against [lcm(lm(a), lm(b)) = v2*v1*v0], and yet [lt] does not
    rank it below the lcm.  On unequal levels [lt] ranks the higher level
    lower: it puts the constant 1 below [v0], and the multiple [v1*v0] below
    its divisor [v0] as well. *)
Theorem spoly_not_below_lcm_under_lt :
  match spoly_scenario empty_manager with
  | Ok run m =>
      sr_spoly run = Some 18 /\
      to_monomials 9 m 18 = Some [((-1)%Q, [1]); (1%Q, [0; 0])] /\
      to_monomials 9 m (sr_lcm run) = Some [(1%Q, [0; 1; 2])] /\
      lt scenario_fuel m 18 (sr_lcm run) = Some false /\
      lt scenario_fuel m one_pdd 2 = Some true /\
      to_monomials 9 m 11 = Some [(1%Q, [0; 1])] /\
      lt scenario_fuel m 11 2 = Some true
  | Err _ _ => False
  end.
Proof. vm_compute. repeat split. Qed.

(** ** The mark phase *)

Lemma reach_insert r c q :
  reach (<[c := true]> r) q = if (q =? c) && (c <? length r) then true else reach r q.
Proof.
  unfold reach. destruct (Nat.eqb_spec q c) as [->|Hne]; cbn [andb].
  - destruct (Nat.ltb_spec c (length r)).
    + rewrite list_lookup_insert_eq by lia. reflexivity.
    + rewrite list_insert_ge by lia. reflexivity.
  - rewrite list_lookup_insert_ne by auto. reflexivity.
Qed.

Lemma reach_lt r q : reach r q = true -> q < length r.
Proof.
  unfold reach. destruct (r !! q) eqn:E; [|discriminate].
  intros _. eapply lookup_lt_Some; eauto.
Qed.

Lemma unmarked_insert r c :
  c < length r -> reach r c = false -> unmarked (<[c := true]> r) + 1 = unmarked r.
Proof.
  unfold reach. revert c. induction r as [|b r IH]; intros c Hc Hr; simpl in *; [lia|].
  destruct c as [|c]; simpl in *.
  - subst b. lia.
  - specialize (IH c ltac:(lia) Hr). lia.
Qed.

Lemma node_out_of_range m p : length (m_nodes m) <= p -> node m p = pdd_node0.
Proof. intros H. unfold node. rewrite lookup_ge_None_2 by auto. reflexivity. Qed.

Lemma is_val_out_of_range m p : length (m_nodes m) <= p -> is_val m p = true.
Proof. intros H. unfold is_val, hi. rewrite node_out_of_range by auto. reflexivity. Qed.

Lemma mark_loop_S fuel m p todo r :
  mark_loop (S fuel) m (p :: todo) r =
  if is_val m p then mark_loop fuel m todo r
  else let tr := visit (hi m p) (visit (lo m p) (todo, r)) in
       mark_loop fuel m (fst tr) (snd tr).
Proof.
  cbn [mark_loop]. destruct (is_val m p); [reflexivity|].
  unfold visit. cbn [fst snd].
  destruct (negb (reach r (lo m p))); cbn [fst snd];
    match goal with |- context [negb (reach ?x ?y)] => destruct (negb (reach x y)) end;
    reflexivity.
Qed.

Lemma visit_spec c todo r :
  let tr := visit c (todo, r) in
  length (snd tr) = length r /\
  potential (snd tr) (fst tr) <= potential r todo + 1 /\
  (forall q, reach r q = true -> reach (snd tr) q = true) /\
  ok_child (snd tr) c /\
  (forall q, In q todo -> In q (fst tr)) /\
  (forall q, reach (snd tr) q = true -> reach r q = true \/ In q (fst tr)).
Proof.
  unfold visit. cbn [fst snd]. destruct (reach r c) eqn:E; cbn [negb fst snd].
  - repeat split; auto; try lia. left; auto.
  - assert (Hw : forall t, weight (<[c := true]> r) t = weight r t)
      by (intros; unfold weight; rewrite length_insert; reflexivity).
    repeat split.
    + apply length_insert.
    + unfold potential. cbn [map list_sum]. rewrite Hw.
      rewrite (map_ext _ _ Hw).
      unfold weight at 1. destruct (Nat.ltb_spec c (length r)).
      * pose proof (unmarked_insert r c H E).
        change (list_sum (3 :: map (weight r) todo)) with (3 + list_sum (map (weight r) todo)).
        lia.
      * rewrite list_insert_ge by lia.
        change (list_sum (1 :: map (weight r) todo)) with (1 + list_sum (map (weight r) todo)).
        lia.
    + intros q Hq. rewrite reach_insert. rewrite Hq. destruct (_ && _); reflexivity.
    + unfold ok_child. rewrite reach_insert, length_insert, Nat.eqb_refl. cbn [andb].
      destruct (Nat.ltb_spec c (length r)); auto.
    + intros q Hq. right; auto.
    + intros q. rewrite reach_insert.
      destruct (Nat.eqb_spec q c) as [->|]; cbn [andb]; [right; left; reflexivity|auto].
Qed.

Lemma weight_pos r t : 1 <= weight r t.
Proof. unfold weight. destruct (_ <? _); lia. Qed.

Lemma ok_child_mono r r' c :
  length r' = length r -> (forall q, reach r q = true -> reach r' q = true) ->
  ok_child r c -> ok_child r' c.
Proof. intros Hl Hm [H|H]; [left; auto|right; lia]. Qed.

Lemma mark_loop_closed m fuel : forall todo r,
  length r = length (m_nodes m) ->
  potential r todo <= fuel ->
  closed m r todo ->
  closed m (mark_loop fuel m todo r) [] /\
  (forall q, reach r q = true -> reach (mark_loop fuel m todo r) q = true) /\
  length (mark_loop fuel m todo r) = length r.
Proof.
  induction fuel as [|fuel IH]; intros todo r Hlen Hpot Hcl.
  - destruct todo as [|p t].
    + simpl. auto.
    + exfalso. unfold potential in Hpot. cbn [map] in Hpot.
      change (list_sum (weight r p :: map (weight r) t))
        with (weight r p + list_sum (map (weight r) t)) in Hpot.
      pose proof (weight_pos r p). lia.
  - destruct todo as [|p t]; [simpl; auto|].
    rewrite mark_loop_S.
    assert (Hpot' : weight r p + potential r t <= S fuel).
    { unfold potential in *. cbn [map] in Hpot.
      change (list_sum (weight r p :: map (weight r) t))
        with (weight r p + list_sum (map (weight r) t)) in Hpot. lia. }
    destruct (is_val m p) eqn:Ev.
    + apply IH; auto.
      * pose proof (weight_pos r p). lia.
      * intros q Hq. destruct (Hcl q Hq) as [[->|Hin]|H]; auto.
    + assert (Hp : p < length r).
      { destruct (Nat.lt_ge_cases p (length r)); auto.
        rewrite is_val_out_of_range in Ev by lia. discriminate. }
      assert (Hw : weight r p = 3)
        by (unfold weight; destruct (Nat.ltb_spec p (length r)); auto; lia).
      pose proof (visit_spec (lo m p) t r) as S1.
      destruct (visit (lo m p) (t, r)) as [t1 r1]. cbn [fst snd] in S1.
      destruct S1 as (L1 & P1 & M1 & O1 & I1 & N1).
      pose proof (visit_spec (hi m p) t1 r1) as S2.
      destruct (visit (hi m p) (t1, r1)) as [t2 r2]. cbn [fst snd] in S2.
      destruct S2 as (L2 & P2 & M2 & O2 & I2 & N2).
      cbv zeta. cbn [fst snd].
      destruct (IH t2 r2) as (C & Mo & Le).
      * lia.
      * lia.
      * intros q Hq. destruct (N2 q Hq) as [Hq1|Hin]; [|auto].
        destruct (N1 q Hq1) as [Hq0|Hin]; [|auto].
        destruct (Hcl q Hq0) as [[->|Hin]|[H|[Hl Hh]]]; auto.
        -- right; right. split; [|exact O2].
           apply (ok_child_mono r1); auto.
        -- right; right. split.
           ++ apply (ok_child_mono r); [lia|auto|auto].
           ++ apply (ok_child_mono r); [lia|auto|auto].
      * split; [exact C|]. split; [|lia]. auto.
Qed.

Lemma mark_roots_spec l : forall r,
  length (mark_roots l r) = length r /\
  (forall q, reach (mark_roots l r) q = true <->
             reach r q = true \/ (In q l /\ q < length r)).
Proof.
  unfold mark_roots. induction l as [|i l IH]; intros r; simpl.
  - split; auto. intros q. split; auto. intros [H|[[] _]]; auto.
  - destruct (IH (<[i := true]> r)) as [Hl Hq]. rewrite length_insert in Hl, Hq.
    split; auto. intros q. rewrite Hq, reach_insert.
    destruct (Nat.eqb_spec q i) as [->|Hne]; cbn [andb].
    + destruct (Nat.ltb_spec i (length r)); intuition (auto; lia).
    + intuition (auto; congruence).
Qed.

Lemma unmarked_le r : unmarked r <= length r.
Proof. induction r as [|[] r IH]; simpl; lia. Qed.

Lemma weights_le r l : list_sum (map (weight r) l) <= 3 * length l.
Proof.
  induction l as [|t l IH]; simpl; [lia|].
  unfold weight at 1. destruct (_ <? _); lia.
Qed.

Lemma reach_replicate n q : reach (replicate n false) q = false.
Proof.
  unfold reach. destruct (replicate n false !! q) eqn:E; [|reflexivity].
  apply lookup_replicate in E as [-> _]. reflexivity.
Qed.

Lemma gc_reachable_spec m :
  closed m (gc_reachable m) [] /\
  length (gc_reachable m) = length (m_nodes m) /\
  (forall q, In q (gc_roots m) -> q < length (m_nodes m) -> reach (gc_reachable m) q = true).
Proof.
  unfold gc_reachable. cbv zeta.
  set (roots := gc_roots m). set (n := length (m_nodes m)).
  destruct (mark_roots_spec roots (replicate n false)) as [Hl Hq].
  rewrite length_replicate in Hl, Hq.
  destruct (mark_loop_closed m (3 * (length roots + n)) (rev roots)
              (mark_roots roots (replicate n false))) as (C & Mo & Le).
  - rewrite Hl. reflexivity.
  - unfold potential. pose proof (weights_le (mark_roots roots (replicate n false)) (rev roots)).
    pose proof (unmarked_le (mark_roots roots (replicate n false))).
    rewrite length_rev in *. lia.
  - intros q Hr. apply Hq in Hr as [Hr|[Hin _]].
    + rewrite reach_replicate in Hr. discriminate.
    + left. apply in_rev in Hin. exact Hin.
  - split; [exact C|]. split; [lia|].
    intros q Hin Hlt. apply Mo. apply Hq. right. auto.
Qed.

(** ** The sweep and what it leaves alone *)

Lemma node_free_slot i m p : p <> i -> node (free_slot i m) p = node m p.
Proof.
  intros H. unfold free_slot, node. cbn [m_nodes with_free_nodes with_nodes].
  rewrite list_lookup_insert_ne by auto. reflexivity.
Qed.

Lemma sweep_step_node r m i p :
  reach r p = true \/ p <> i -> node (sweep_step r m i) p = node m p.
Proof.
  intros H. unfold sweep_step. destruct (reach r i) eqn:E; [reflexivity|].
  assert (Hne : p <> i) by (destruct H as [H|H]; [congruence|exact H]).
  destruct (is_val m i); [destruct (Rat.eqb _ _); [reflexivity|]|];
    rewrite node_free_slot by auto; reflexivity.
Qed.

Lemma sweep_node r ids : forall m p,
  reach r p = true \/ ~ In p ids ->
  node (fold_left (sweep_step r) ids m) p = node m p.
Proof.
  induction ids as [|i ids IH]; intros m p H; simpl; [reflexivity|].
  rewrite IH.
  - apply sweep_step_node. destruct H as [H|H]; [left; exact H|right].
    intros ->. apply H. left; reflexivity.
  - destruct H as [H|H]; [left; exact H|right]. intros Hin. apply H. right; exact Hin.
Qed.

Lemma in_ids_down m p : In p (ids_down m) <-> 2 <= p < length (m_nodes m).
Proof.
  unfold ids_down. rewrite <- in_rev, in_seq. lia.
Qed.

Lemma gc_node m p :
  reach (gc_reachable (with_free_nodes [] m)) p = true \/ p < 2 \/ length (m_nodes m) <= p ->
  node (gc m) p = node m p.
Proof.
  intros H. unfold gc. cbv zeta.
  change (node (fold_left (sweep_step (gc_reachable (with_free_nodes [] m)))
                  (ids_down (with_free_nodes [] m)) (with_free_nodes [] m)) p = node m p).
  rewrite sweep_node; [reflexivity|].
  destruct H as [H|H]; [left; exact H|right].
  rewrite in_ids_down. cbn [m_nodes with_free_nodes]. lia.
Qed.

(** ** Monomials read only the nodes below the root *)

Lemma to_monomials_frame m m' (S : PDD -> Prop) :
  m_values m' = m_values m ->
  m_level2var m' = m_level2var m ->
  (forall p, S p -> node m' p = node m p) ->
  (forall p, S p -> is_val m p = false -> S (lo m p) /\ S (hi m p)) ->
  forall fuel p, S p -> to_monomials fuel m' p = to_monomials fuel m p.
Proof.
  intros Hv Hl Hn Hc. induction fuel as [|fuel IH]; intros p Hp; [reflexivity|].
  cbn [to_monomials].
  assert (E : node m' p = node m p) by auto.
  unfold is_val, val, var, hi, lo, level. rewrite E, Hv, Hl.
  destruct (m_hi (node m p) =? 0) eqn:Ev; [reflexivity|].
  destruct (Hc p Hp Ev) as [Hlo Hhi]. unfold lo, hi in Hlo, Hhi.
  rewrite (IH _ Hhi), (IH _ Hlo). reflexivity.
Qed.

Lemma live_handle_is_marked m h :
  0 < m_refcount (node m h) -> 2 <= h ->
  reach (gc_reachable (with_free_nodes [] m)) h = true.
Proof.
  intros Hrc Hh.
  assert (Hlt : h < length (m_nodes m)).
  { destruct (Nat.lt_ge_cases h (length (m_nodes m))); auto.
    rewrite node_out_of_range in Hrc by auto. simpl in Hrc. lia. }
  apply gc_reachable_spec; [|exact Hlt].
  unfold gc_roots. apply in_or_app. right.
  unfold rc_roots. apply list_elem_of_In, list_elem_of_filter. split.
  - change (node (with_free_nodes [] m) h) with (node m h).
    apply Is_true_true, Nat.ltb_lt. exact Hrc.
  - apply list_elem_of_In, in_ids_down. cbn [m_nodes with_free_nodes]. lia.
Qed.

Theorem try_gc_preserves_monomials fuel m h :
  is_val m zero_pdd = true -> is_val m one_pdd = true ->
  0 < m_refcount (node m h) ->
  to_monomials fuel (try_gc m) h = to_monomials fuel m h.
Proof.
  intros H0 H1 Hrc.
  set (r := gc_reachable (with_free_nodes [] m)).
  destruct (gc_reachable_spec (with_free_nodes [] m)) as (Hcl & Hlen & _).
  fold r in Hcl, Hlen. cbn [m_nodes with_free_nodes] in Hlen.
  destruct (gc_frame m) as (_ & _ & Hv & Hl & _).
  apply (to_monomials_frame m (try_gc m)
           (fun p => reach r p = true \/ p < 2 \/ length (m_nodes m) <= p)).
  - exact Hv.
  - exact Hl.
  - intros p Hp. change (node (try_gc m) p) with (node (gc m) p). apply gc_node. exact Hp.
  - intros p Hp Ev. destruct Hp as [Hp|[Hp|Hp]].
    + destruct (Hcl p Hp) as [[]|[Hval|[Hlo Hhi]]].
      * change (is_val (with_free_nodes [] m) p) with (is_val m p) in Hval. congruence.
      * change (lo (with_free_nodes [] m) p) with (lo m p) in Hlo.
        change (hi (with_free_nodes [] m) p) with (hi m p) in Hhi.
        unfold ok_child in Hlo, Hhi. rewrite Hlen in Hlo, Hhi.
        split; [destruct Hlo|destruct Hhi]; auto.
    + unfold zero_pdd, one_pdd in H0, H1.
      assert (p = 0 \/ p = 1) as [->| ->] by lia; congruence.
    + rewrite is_val_out_of_range in Ev by auto. discriminate.
  - destruct (Nat.lt_ge_cases h 2); [auto|].
    left. apply live_handle_is_marked; auto.
Qed.

Lemma try_gc_preserves_monomials_witness :
  (is_val c4_state zero_pdd = true /\ is_val c4_state one_pdd = true /\
   0 < m_refcount (node c4_state 9)) /\
  to_monomials 64 (try_gc c4_state) 9 = to_monomials 64 c4_state 9.
Proof.
  assert (H0 : is_val c4_state zero_pdd = true) by (vm_compute; reflexivity).
  assert (H1 : is_val c4_state one_pdd = true) by (vm_compute; reflexivity).
  assert (H2 : 0 < m_refcount (node c4_state 9)) by (vm_compute; lia).
  split; [auto|].
  exact (try_gc_preserves_monomials 64 c4_state 9 H0 H1 H2).
Defined.

(** ** The comparison [lt] *)

Lemma lt_loop_asymmetric fuel m : forall x y,
  lt_loop fuel m x y = Some true -> lt_loop fuel m y x = Some false.
Proof.
  induction fuel as [|f IH]; intros x y H; [discriminate|].
  cbn [lt_loop] in *.
  destruct (is_val m x) eqn:Ex.
  - destruct (is_val m y) eqn:Ey; cbn [negb orb] in *.
    + injection H as H. f_equal. unfold Rat.ltb in *.
      apply negb_true_iff in H. apply negb_false_iff.
      destruct (Qle_bool (val m x) (val m y)) eqn:E; auto.
      assert (Hn : ~ (val m y <= val m x)%Q) by (intros C; apply Qle_bool_iff in C; congruence).
      assert (Hn' : ~ (val m x <= val m y)%Q) by (intros C; apply Qle_bool_iff in C; congruence).
      exfalso. apply Hn. apply Qlt_le_weak. apply Qnot_le_lt. exact Hn'.
    + reflexivity.
  - destruct (is_val m y) eqn:Ey; [discriminate|].
    rewrite (Nat.eqb_sym (level m y)), (Nat.eqb_sym (hi m y)).
    destruct (level m x =? level m y) eqn:El.
    + destruct (hi m x =? hi m y); apply IH; exact H.
    + injection H as H. f_equal.
      apply Nat.ltb_lt in H. apply Nat.ltb_ge. lia.
Qed.

(** X1: [lt] is a strict comparison: when [a] is below [b], then [b] is not
    below [a], and the two are different handles. *)
Theorem lt_asymmetric fuel m a b :
  lt fuel m a b = Some true -> lt fuel m b a = Some false /\ a <> b.
Proof.
  unfold lt. rewrite (Nat.eqb_sym b a).
  destruct (Nat.eqb_spec a b) as [->|Hne]; [discriminate|].
  intros H. split; [apply lt_loop_asymmetric; exact H|exact Hne].
Qed.

Lemma lt_asymmetric_witness :
  lt 8 c4_state 2 9 = Some true /\ lt 8 c4_state 9 2 = Some false /\ 2 <> 9.
Proof.
  assert (H : lt 8 c4_state 2 9 = Some true) by (vm_compute; reflexivity).
  split; [exact H|]. exact (lt_asymmetric 8 c4_state 2 9 H).
Defined.

(** ** [different_leading_term] *)

(** X2: [different_leading_term] does not depend on the order of its
    arguments, and a handle never differs from itself. *)
Theorem different_leading_term_symmetric fuel m : forall x y,
  different_leading_term fuel m x x = match fuel with 0 => None | S _ => Some false end /\
  different_leading_term fuel m x y = different_leading_term fuel m y x.
Proof.
  induction fuel as [|f IH]; intros x y; [split; reflexivity|].
  cbn [different_leading_term]. rewrite Nat.eqb_refl. split; [reflexivity|].
  rewrite (Nat.eqb_sym y x), (orb_comm (is_val m y)), (Nat.eqb_sym (level m y)).
  destruct (x =? y); [reflexivity|].
  destruct (is_val m x || is_val m y); [reflexivity|].
  destruct (level m x =? level m y); [apply IH|reflexivity].
Qed.

(** ** [is_linear] and the monomials *)

Lemma to_monomials_S f m p :
  to_monomials (S f) m p =
  if is_val m p then
    Some (if negb (Rat.is_zero (val m p)) then [(val m p, [])] else [])
  else
    match to_monomials f m (hi m p), to_monomials f m (lo m p) with
    | Some mons, Some rest =>
        Some (map (fun c => (fst c, snd c ++ [var m p])) mons ++ rest)
    | _, _ => None
    end.
Proof. reflexivity. Qed.

(** X3: when [is_linear] accepts a polynomial, every monomial that
    [to_monomials] lists for it has at most one variable. *)
Theorem is_linear_monomials fuel m : forall fuel' p mons,
  is_linear fuel m p = Some true ->
  to_monomials fuel' m p = Some mons ->
  Forall (fun c => length (snd c) <= 1) mons.
Proof.
  induction fuel as [|f IH]; intros fuel' p mons Hl Hm; [discriminate|].
  cbn [is_linear] in Hl.
  destruct fuel' as [|f']; [discriminate|].
  rewrite to_monomials_S in Hm.
  destruct (is_val m p) eqn:Ep.
  - injection Hm as <-. destruct (negb _); repeat constructor.
  - destruct (is_val m (hi m p)) eqn:Eh; [|discriminate]. cbn [negb] in Hl.
    destruct (to_monomials f' m (hi m p)) as [mh|] eqn:Emh; [|discriminate].
    destruct (to_monomials f' m (lo m p)) as [ml|] eqn:Eml; [|discriminate].
    injection Hm as <-. apply Forall_app. split.
    + destruct f' as [|f'']; [discriminate|].
      rewrite to_monomials_S, Eh in Emh. injection Emh as <-.
      destruct (negb _); repeat constructor.
    + eapply IH; eauto.
Qed.

(** ** [lm_divides] *)

(** X4: the leading monomial of a polynomial divides itself: [lm_divides]
    never answers false on equal arguments. *)
Theorem lm_divides_reflexive fuel m : forall p b,
  lm_divides fuel m p p = Some b -> b = true.
Proof.
  induction fuel as [|f IH]; intros p b H; [discriminate|].
  cbn [lm_divides] in H.
  destruct (is_val m p); [congruence|].
  rewrite Nat.ltb_irrefl, Nat.eqb_refl in H. eauto.
Qed.

Lemma is_linear_monomials_witness :
  (is_linear 8 c4_state 6 = Some true /\
   to_monomials 8 c4_state 6 = Some [(1%Q, [0]); (1%Q, [])]) /\
  Forall (fun c => length (snd c) <= 1) [(1%Q, [0]); (1%Q, [])].
Proof.
  assert (H1 : is_linear 8 c4_state 6 = Some true) by (vm_compute; reflexivity).
  assert (H2 : to_monomials 8 c4_state 6 = Some [(1%Q, [0]); (1%Q, [])])
    by (vm_compute; reflexivity).
  split; [auto|]. exact (is_linear_monomials 8 c4_state 8 6 _ H1 H2).
Defined.

Lemma lm_divides_reflexive_witness :
  lm_divides 8 c4_state 9 9 = Some true /\ true = true.
Proof.
  assert (H : lm_divides 8 c4_state 9 9 = Some true) by (vm_compute; reflexivity).
  split; [exact H|]. exact (lm_divides_reflexive 8 c4_state 9 true H).
Defined.

(** ** What the collector frees *)

Lemma in_insert_sorted x y l : In x (insert_sorted y l) <-> x = y \/ In x l.
Proof.
  induction l as [|z l IH]; simpl; [intuition|].
  destruct (y <=? z); simpl; [intuition|]. rewrite IH. intuition.
Qed.

Lemma in_sort x l : In x (sort l) <-> In x l.
Proof.
  unfold sort. induction l as [|y l IH]; simpl; [reflexivity|].
  rewrite in_insert_sorted, IH. intuition.
Qed.

Lemma sweep_step_free r m i x :
  In x (m_free_nodes (sweep_step r m i)) ->
  In x (m_free_nodes m) \/ (x = i /\ reach r i = false).
Proof.
  unfold sweep_step. destruct (reach r i) eqn:E; [auto|].
  destruct (is_val m i); [destruct (Rat.eqb _ _); [auto|]|];
    unfold free_slot; cbn [m_free_nodes with_free_nodes with_nodes with_mpq_table
                             with_free_values];
    rewrite in_app_iff; simpl; intuition.
Qed.

Lemma sweep_free r ids : forall m x,
  In x (m_free_nodes (fold_left (sweep_step r) ids m)) ->
  In x (m_free_nodes m) \/ (In x ids /\ reach r x = false).
Proof.
  induction ids as [|i ids IH]; intros m x H; simpl in *; [auto|].
  destruct (IH _ _ H) as [H1|[H1 H2]]; [|auto].
  destruct (sweep_step_free _ _ _ _ H1) as [H3|[-> H3]]; auto.
Qed.

Lemma gc_free_unmarked m x :
  In x (m_free_nodes (gc m)) ->
  2 <= x < length (m_nodes m) /\ reach (gc_reachable (with_free_nodes [] m)) x = false.
Proof.
  unfold gc. cbv zeta. cbn [m_free_nodes with_node_table with_op_cache with_free_nodes].
  rewrite <- in_rev, in_sort. intros H.
  apply sweep_free in H as [[]|[H1 H2]].
  apply in_ids_down in H1. cbn [m_nodes with_free_nodes] in H1. auto.
Qed.

(** X5: a slot that [gc] puts on the free list has reference count 0 and is
    not on the evaluation stack (the assertion in the sweep). *)
Theorem gc_frees_only_unreferenced m x :
  In x (m_free_nodes (gc m)) ->
  m_refcount (node m x) = 0 /\ ~ In x (m_pdd_stack m) /\ 2 <= x.
Proof.
  intros H. apply gc_free_unmarked in H as [Hx Hr].
  destruct (gc_reachable_spec (with_free_nodes [] m)) as (_ & _ & Hroots).
  cbn [m_nodes with_free_nodes] in Hroots.
  split; [|split; [|lia]].
  - destruct (m_refcount (node m x)) eqn:E; [reflexivity|].
    rewrite Hroots in Hr; [discriminate| |lia].
    unfold gc_roots. apply in_or_app. right.
    unfold rc_roots. apply list_elem_of_In, list_elem_of_filter. split.
    + change (node (with_free_nodes [] m) x) with (node m x). rewrite E. exact I.
    + apply list_elem_of_In, in_ids_down. cbn [m_nodes with_free_nodes]. lia.
  - intros Hin. rewrite Hroots in Hr; [discriminate| |lia].
    unfold gc_roots. apply in_or_app. left. apply in_rev in Hin. exact Hin.
Qed.

(** ** What the collector keeps *)

Lemma gc_preserves_below_marked fuel m h :
  is_val m zero_pdd = true -> is_val m one_pdd = true ->
  reach (gc_reachable (with_free_nodes [] m)) h = true ->
  to_monomials fuel (gc m) h = to_monomials fuel m h.
Proof.
  intros H0 H1 Hh.
  set (r := gc_reachable (with_free_nodes [] m)) in *.
  destruct (gc_reachable_spec (with_free_nodes [] m)) as (Hcl & Hlen & _).
  fold r in Hcl, Hlen. cbn [m_nodes with_free_nodes] in Hlen.
  destruct (gc_frame m) as (_ & _ & Hv & Hl & _).
  apply (to_monomials_frame m (gc m)
           (fun p => reach r p = true \/ p < 2 \/ length (m_nodes m) <= p)); auto.
  - intros p Hp. apply gc_node. exact Hp.
  - intros p Hp Ev. destruct Hp as [Hp|[Hp|Hp]].
    + destruct (Hcl p Hp) as [[]|[Hval|[Hlo Hhi]]].
      * change (is_val (with_free_nodes [] m) p) with (is_val m p) in Hval. congruence.
      * change (lo (with_free_nodes [] m) p) with (lo m p) in Hlo.
        change (hi (with_free_nodes [] m) p) with (hi m p) in Hhi.
        unfold ok_child in Hlo, Hhi. rewrite Hlen in Hlo, Hhi.
        split; [destruct Hlo|destruct Hhi]; auto.
    + unfold zero_pdd, one_pdd in H0, H1.
      assert (p = 0 \/ p = 1) as [->| ->] by lia; congruence.
    + rewrite is_val_out_of_range in Ev by auto. discriminate.
Qed.

(** X6: the evaluation stack is a root set: a collection leaves the polynomial
    below every id on the stack as it was. *)
Theorem gc_keeps_stack_entries fuel m h :
  is_val m zero_pdd = true -> is_val m one_pdd = true ->
  In h (m_pdd_stack m) -> h < length (m_nodes m) ->
  to_monomials fuel (gc m) h = to_monomials fuel m h.
Proof.
  intros H0 H1 Hin Hlt. apply gc_preserves_below_marked; auto.
  apply gc_reachable_spec; [|exact Hlt].
  unfold gc_roots. apply in_or_app. left.
  apply in_rev in Hin. exact Hin.
Qed.

(** X7: a collection keeps the size of the node pool, the value pool, the
    level order and the ceiling, and of the operation cache exactly the
    pending entries. *)
Theorem gc_keeps_pool_and_pending_entries m :
  length (m_nodes (gc m)) = length (m_nodes m) /\
  m_values (gc m) = m_values m /\
  m_level2var (gc m) = m_level2var m /\
  m_max_num_pdd_nodes (gc m) = m_max_num_pdd_nodes m /\
  m_op_cache (gc m) = filter is_pending (m_op_cache m).
Proof.
  destruct (gc_frame m) as (H1 & H2 & H3 & H4 & H5).
  repeat split; auto.
Qed.

(** ** The evaluation stack *)

Lemma keeps_ret {A} (a : A) : keeps (ret a).
Proof. intros m. reflexivity. Qed.

Lemma keeps_throw {A} e : keeps (@throw A e).
Proof. intros m. reflexivity. Qed.

Lemma keeps_bind {A B} (c : M A) (k : A -> M B) :
  keeps c -> (forall a, keeps (k a)) -> keeps (bind c k).
Proof.
  intros Hc Hk m. unfold bind. specialize (Hc m).
  destruct (c m) as [a m1|e m1]; cbn [state_of] in *; [|exact Hc].
  rewrite Hk. exact Hc.
Qed.

Lemma keeps_gets {A} (f : manager -> A) : keeps (gets f).
Proof. intros m. reflexivity. Qed.

Lemma keeps_read i : keeps (read i).
Proof. intros m. unfold read. destruct (_ <=? _); [destruct (_ !! _)|]; reflexivity. Qed.

Lemma keeps_cache_probe p q op : keeps (cache_probe p q op).
Proof.
  intros m. unfold cache_probe.
  destruct (cache_find _ _ _ _) as [e|]; [destruct (m_result e)|]; reflexivity.
Qed.

Lemma keeps_cache_store p q op r : keeps (cache_store p q op r).
Proof. intros m. reflexivity. Qed.

Lemma free_slot_stack i m : m_pdd_stack (free_slot i m) = m_pdd_stack m.
Proof. reflexivity. Qed.

Lemma sweep_step_stack r m i : m_pdd_stack (sweep_step r m i) = m_pdd_stack m.
Proof.
  unfold sweep_step. destruct (reach r i); [reflexivity|].
  destruct (is_val m i); [destruct (Rat.eqb _ _)|]; reflexivity.
Qed.

Lemma sweep_stack r ids : forall m,
  m_pdd_stack (fold_left (sweep_step r) ids m) = m_pdd_stack m.
Proof.
  induction ids as [|i ids IH]; intros m; [reflexivity|].
  cbn [fold_left]. rewrite IH. apply sweep_step_stack.
Qed.

Lemma gc_stack m : m_pdd_stack (gc m) = m_pdd_stack m.
Proof.
  unfold gc. cbn [m_pdd_stack with_node_table with_op_cache with_free_nodes].
  rewrite sweep_stack. reflexivity.
Qed.

Lemma try_gc_stack m : m_pdd_stack (try_gc m) = m_pdd_stack m.
Proof. unfold try_gc. cbn [m_pdd_stack with_op_cache]. apply gc_stack. Qed.

Lemma alloc_free_nodes_stack n m : m_pdd_stack (alloc_free_nodes n m) = m_pdd_stack m.
Proof.
  unfold alloc_free_nodes. destruct (alloc_free_nodes_loop _ _ _). reflexivity.
Qed.

Lemma insert_node_finish_stack dg e m :
  m_pdd_stack (state_of (insert_node_finish dg e m)) = m_pdd_stack m.
Proof.
  unfold insert_node_finish. destruct (dg && _); [reflexivity|]. cbv zeta.
  assert (H3 : m_pdd_stack (if dg then alloc_free_nodes (length (m_nodes m) / 2) m else m)
               = m_pdd_stack m)
    by (destruct dg; [apply alloc_free_nodes_stack | reflexivity]).
  destruct (last _); cbn [state_of m_pdd_stack with_is_new_node with_nodes with_node_table
                          with_free_nodes]; exact H3.
Qed.

Lemma keeps_insert_node n : keeps (insert_node n).
Proof.
  intros m. rewrite insert_node_eq. unfold insert_node_tail.
  destruct (negb _); [reflexivity|]. cbv zeta.
  destruct (_ && negb _); rewrite insert_node_finish_stack;
    cbn [m_pdd_stack with_node_table]; rewrite ?gc_stack; reflexivity.
Qed.

Lemma keeps_make_node lvl l h : keeps (make_node lvl l h).
Proof.
  unfold make_node. apply keeps_bind; [intros m; reflexivity|].
  intros _. destruct (is_zero h); [apply keeps_ret | apply keeps_insert_node].
Qed.

Lemma keeps_init_value r : keeps (init_value r).
Proof.
  intros m. unfold init_value.
  set (p := match last (m_free_values m) with None => _ | Some v => _ end).
  assert (Hp : m_pdd_stack (snd p) = m_pdd_stack m)
    by (unfold p; destruct (last _); reflexivity).
  destruct p as [vi m1]. cbn [snd] in Hp.
  pose proof (keeps_insert_node (pdd_node1 vi) (with_freeze_value r m1)) as Hi.
  destruct (insert_node _ _) as [a m3|e m3]; cbn [state_of m_pdd_stack with_mpq_table] in *;
    rewrite Hi; exact Hp.
Qed.

Lemma keeps_imk_val_rec d : forall r, keeps (imk_val_rec d r).
Proof.
  induction d as [|d IH]; intros r m; cbn [imk_val_rec];
    (destruct (Rat.is_zero r); [reflexivity|]);
    (destruct (Rat.is_one r); [reflexivity|]);
    destruct (m_mod2_semantics m); try reflexivity; try apply IH;
    (destruct (mpq_find r _); [reflexivity|]);
    apply (keeps_bind _ _ (keeps_init_value r) (fun a => keeps_ret _)).
Qed.

Lemma keeps_imk_val r : keeps (imk_val r).
Proof. apply keeps_imk_val_rec. Qed.

(** *** The stack judgement *)

Lemma stk_keeps s0 {A} (c : M A) l : keeps c -> stk s0 c l l.
Proof.
  intros Hc m Hm. specialize (Hc m).
  destruct (c m) as [a m1|e m1]; cbn [state_of] in Hc; rewrite Hc, Hm;
    [reflexivity | apply prefix_app_r; reflexivity].
Qed.

Lemma stk_balanced s0 {A} (c : M A) l : balanced c -> stk s0 c l l.
Proof.
  intros Hc m Hm. specialize (Hc (s0 ++ l) m). rewrite app_nil_r in Hc. specialize (Hc Hm).
  destruct (c m) as [a m1|e m1]; [exact Hc|].
  etransitivity; [|exact Hc]. apply prefix_app_r. reflexivity.
Qed.

Lemma stk_bind s0 {A B} (c : M A) (k : A -> M B) l l1 l' :
  stk s0 c l l1 -> (forall a, stk s0 (k a) l1 l') -> stk s0 (bind c k) l l'.
Proof.
  intros Hc Hk m Hm. unfold bind. specialize (Hc m Hm).
  destruct (c m) as [a m1|e m1]; [apply Hk, Hc | exact Hc].
Qed.

Lemma stk_push s0 b l : stk s0 (push b) l (l ++ [b]).
Proof. intros m Hm. cbn. rewrite Hm, app_assoc. reflexivity. Qed.

Lemma stk_pop s0 n l : n <= length l -> stk s0 (pop n) l (take (length l - n) l).
Proof.
  intros Hn m Hm. cbn. rewrite Hm, length_app.
  replace (length s0 + length l - n) with (length s0 + (length l - n)) by lia.
  rewrite take_app_add. reflexivity.
Qed.

Lemma stk_ret s0 {A} (a : A) l l' : l = l' -> stk s0 (ret a) l l'.
Proof. intros <- m Hm. exact Hm. Qed.

Lemma stk_throw s0 {A} e l l' : stk s0 (@throw A e) l l'.
Proof. intros m Hm. cbn. rewrite Hm. apply prefix_app_r. reflexivity. Qed.

Lemma prefix_take (s x : list PDD) : s `prefix_of` x -> take (length s) x = s.
Proof. intros [k ->]. apply take_app_length. Qed.

Lemma retry_loop_prefix (w : M PDD) : balanced w ->
  forall n first m,
    m_pdd_stack m `prefix_of` m_pdd_stack (state_of (retry_loop n first w m)).
Proof.
  intros Hw. induction n as [|n IH]; intros first m; cbn [retry_loop]; [reflexivity|].
  pose proof (Hw (m_pdd_stack m) m) as H. rewrite app_nil_r in H. specialize (H eq_refl).
  destruct (w m) as [a m1|e m1]; cbn [state_of]; [rewrite H; reflexivity|].
  destruct e; cbn [state_of]; try exact H.
  destruct (negb first); cbn [state_of].
  - rewrite try_gc_stack. exact H.
  - etransitivity; [exact H|]. rewrite <- (try_gc_stack m1). apply IH.
Qed.

Lemma keeps_apply_with (w : M PDD) : balanced w -> keeps (apply_with w).
Proof.
  intros Hw m. unfold apply_with, scoped_push.
  pose proof (retry_loop_prefix w Hw 2 true m) as H.
  destruct (retry_loop 2 true w m) as [a m1|e m1]; cbn [state_of m_pdd_stack with_pdd_stack] in *;
    apply prefix_take, H.
Qed.

Ltac stk_step :=
  match goal with
  | |- stk _ (bind _ _) _ _ => eapply stk_bind; [|intros ?]
  | |- stk _ (if ?b then _ else _) _ _ => destruct b
  | |- stk _ (match ?o with Some _ => _ | None => _ end) _ _ => destruct o
  | |- stk _ (ret _) _ _ => apply stk_ret; reflexivity
  | |- stk _ (throw _) _ _ => apply stk_throw
  | |- stk _ (push _) _ _ => apply stk_push
  | |- stk _ (pop _) _ _ => apply stk_pop; cbn [length app]; lia
  | |- stk _ (finish _ _ _ _ _) _ _ => unfold finish
  | |- stk _ (gets _) _ _ => apply stk_keeps, keeps_gets
  | |- stk _ (read _) _ _ => apply stk_keeps, keeps_read
  | |- stk _ (cache_probe _ _ _) _ _ => apply stk_keeps, keeps_cache_probe
  | |- stk _ (cache_store _ _ _ _) _ _ => apply stk_keeps, keeps_cache_store
  | |- stk _ (make_node _ _ _) _ _ => apply stk_keeps, keeps_make_node
  | |- stk _ (imk_val _) _ _ => apply stk_keeps, keeps_imk_val
  | H : forall p q op, balanced (?f p q op) |- stk _ (apply_with (?f _ _ _)) _ _ =>
      apply stk_keeps, keeps_apply_with, H
  | H : forall p q op, balanced (?f p q op) |- stk _ (?f _ _ _) _ _ => apply stk_balanced, H
  | H : forall p q, balanced (?f p q) |- stk _ (?f _ _) _ _ => apply stk_balanced, H
  end.

Section BodyStack.
Variables (ar : PDD -> PDD -> pdd_op -> M PDD) (rom ltq : PDD -> PDD -> M PDD).
Hypothesis Har : forall p q op, balanced (ar p q op).
Hypothesis Hrom : forall p q, balanced (rom p q).
Hypothesis Hltq : forall p q, balanced (ltq p q).

Lemma balanced_apply_rec_body p q op : balanced (apply_rec_body ar rom p q op).
Proof.
  intros s0 m. unfold apply_rec_body.
  destruct (apply_pre m p q op) as [c|p1 q1] eqn:E.
  - assert (Hc : keeps c); [|apply (stk_keeps s0 c [] Hc m)].
    unfold apply_pre in E.
    destruct op;
      repeat match type of E with
             | (if ?b then _ else _) = _ => destruct b
             end;
      inversion E; subst c;
      first [apply keeps_ret | apply keeps_imk_val | apply keeps_throw].
  - clear E. revert m.
    match goal with
    | |- forall m, _ -> match ?c m with _ => _ end => change (stk s0 c [] [])
    end.
    destruct op; cbv zeta; repeat stk_step.
Qed.

Lemma balanced_reduce_on_match_body f a b :
  balanced (reduce_on_match_body ar rom ltq f a b).
Proof.
  intros s0. unfold reduce_on_match_body. eapply stk_bind.
  - apply stk_keeps. intros m. destruct (lm_divides f m b a); reflexivity.
  - intros d. repeat stk_step.
Qed.

Lemma balanced_lt_quotient_body p q : balanced (lt_quotient_body ar ltq p q).
Proof.
  assert (Hft : forall h,
    balanced (let* t := ltq p h in
              let* x := gets (fun m => default 0 (m_var2pdd m !! var m q)) in
              apply_with (ar x t pdd_mul_op))).
  { intros h s0. repeat stk_step. }
  intros s0 m. unfold lt_quotient_body. cbv zeta.
  destruct (is_val m p); [destruct (is_val m q)|destruct (_ =? _)].
  - apply (stk_keeps s0 _ [] (keeps_imk_val _)).
  - apply (Hft (hi m q)).
  - apply Hltq.
  - apply (Hft (hi m q)).
Qed.

End BodyStack.

Lemma balanced_workers f :
  (forall p q op, balanced (apply_rec f p q op)) /\
  (forall a b, balanced (reduce_on_match f a b)) /\
  (forall p q, balanced (lt_quotient f p q)).
Proof.
  induction f as [|f (IHa & IHr & IHl)].
  - split; [|split]; [intros p q op | intros a b | intros p q]; intros s0; apply stk_throw.
  - split; [|split]; [intros p q op | intros a b | intros p q];
      cbn [apply_rec reduce_on_match lt_quotient].
    + apply balanced_apply_rec_body; assumption.
    + apply (balanced_reduce_on_match_body _ _ _ IHa IHr IHl).
    + apply balanced_lt_quotient_body; assumption.
Qed.

(** X8: the pushes and pops of [apply_rec] balance.  When it returns, the
    evaluation stack is the one it was called with; when it throws, nothing
    below the starting height has been popped, so that the scope guard of
    [apply] cuts the stack back to exactly what the caller had. *)
Theorem apply_rec_balances_stack fuel p q op m :
  match apply_rec fuel p q op m with
  | Ok _ m' => m_pdd_stack m' = m_pdd_stack m
  | Err _ m' => m_pdd_stack m `prefix_of` m_pdd_stack m'
  end /\
  m_pdd_stack (state_of (apply fuel p q op m)) = m_pdd_stack m.
Proof.
  destruct (balanced_workers fuel) as (Ha & _ & _). split.
  - pose proof (Ha p q op (m_pdd_stack m) m) as H. rewrite app_nil_r in H.
    apply H. reflexivity.
  - apply keeps_apply_with, Ha.
Qed.

(** ** Constants in mod-2 mode *)

(** X9: in mod-2 mode [imk_val] maps every rational to one of the two
    reserved constants and leaves the manager untouched. *)
Theorem imk_val_mod2 r m :
  m_mod2_semantics m = true ->
  imk_val r m = Ok zero_pdd m \/ imk_val r m = Ok one_pdd m.
Proof.
  intros H2. unfold imk_val. cbn [imk_val_rec]. rewrite H2.
  destruct (Rat.is_zero r); [auto|]. destruct (Rat.is_one r); [auto|].
  unfold Rat.mod2.
  assert (Hm : (0 <= Qnum (Qred r) mod 2 < 2)%Z) by (apply Z.mod_pos_bound; lia).
  assert (E : (Qnum (Qred r) mod 2 = 0 \/ Qnum (Qred r) mod 2 = 1)%Z) by lia.
  destruct E as [-> | ->]; [left|right]; reflexivity.
Qed.

(** ** Neutral and absorbing elements *)

(** X10: the short cuts of [apply]: adding 0, multiplying by 0 or 1 and
    reducing by 0 return an operand itself and leave the manager, its cache
    included, untouched. *)
Theorem apply_short_cuts f p q m :
  apply (S f) zero_pdd q pdd_add_op m = Ok q m /\
  apply (S f) p zero_pdd pdd_add_op m = Ok p m /\
  apply (S f) zero_pdd q pdd_mul_op m = Ok zero_pdd m /\
  apply (S f) p zero_pdd pdd_mul_op m = Ok zero_pdd m /\
  apply (S f) one_pdd q pdd_mul_op m = Ok q m /\
  apply (S f) p one_pdd pdd_mul_op m = Ok p m /\
  apply (S f) p zero_pdd pdd_reduce_op m = Ok p m.
Proof.
  unfold apply.
  repeat split; apply apply_with_Ok; cbn [apply_rec]; unfold apply_rec_body, apply_pre.
  - reflexivity.
  - destruct (is_zero p) eqn:E; [|reflexivity].
    apply Nat.eqb_eq in E. subst p. reflexivity.
  - reflexivity.
  - rewrite orb_true_r. reflexivity.
  - destruct (is_zero q) eqn:E; [|reflexivity].
    apply Nat.eqb_eq in E. subst q. reflexivity.
  - destruct (is_zero p) eqn:E; cbn [orb is_zero Nat.eqb zero_pdd one_pdd].
    + apply Nat.eqb_eq in E. subst p. reflexivity.
    + destruct (is_one p) eqn:E1; [|reflexivity].
      apply Nat.eqb_eq in E1. subst p. reflexivity.
  - reflexivity.
Qed.

(** ** The unique table: inserting twice *)

Lemma same_content_sym a b : same_content a b = same_content b a.
Proof.
  unfold same_content.
  rewrite (Nat.eqb_sym (m_level a)), (Nat.eqb_sym (m_lo a)), (Nat.eqb_sym (m_hi a)).
  reflexivity.
Qed.

Lemma same_content_fields a b :
  same_content a b = true <->
  m_level a = m_level b /\ m_lo a = m_lo b /\ m_hi a = m_hi b.
Proof.
  unfold same_content. rewrite !andb_true_iff, !Nat.eqb_eq. tauto.
Qed.

Lemma same_content_trans a b c :
  same_content a b = true -> same_content b c = true -> same_content a c = true.
Proof. rewrite !same_content_fields. intuition congruence. Qed.

Lemma table_find_content n t e : table_find n t = Some e -> same_content n e = true.
Proof.
  induction t as [|x t IH]; simpl; [discriminate|].
  destruct (same_content n x) eqn:E; [|exact IH]. intros [= <-]. exact E.
Qed.

Lemma table_find_insert n e t :
  same_content n e = true -> table_find n (table_insert e t) = Some e.
Proof.
  intros H. induction t as [|x t IH]; simpl.
  - rewrite H. reflexivity.
  - destruct (same_content e x) eqn:Ex; simpl.
    + rewrite H. reflexivity.
    + destruct (same_content n x) eqn:Nx; [|exact IH].
      rewrite same_content_sym in H.
      rewrite (same_content_trans _ _ _ H Nx) in Ex. discriminate.
Qed.

Lemma with_node_table_idem m : with_node_table (m_node_table m) m = m.
Proof. destruct m; reflexivity. Qed.

Lemma same_content_refl n : same_content n n = true.
Proof. apply same_content_fields. auto. Qed.

Lemma insert_if_not_there2_spec n t0 e t :
  insert_if_not_there2 n t0 = (e, t) ->
  same_content n e = true /\ table_find n t = Some e.
Proof.
  unfold insert_if_not_there2. destruct (table_find n t0) as [x|] eqn:E.
  - intros [= <- <-]. split; [eapply table_find_content; eauto|exact E].
  - intros [= <- <-]. split; [apply same_content_refl|].
    apply table_find_insert, same_content_refl.
Qed.

(** X11: hash-consing round trip: when [insert_node] has returned an id other
    than 0 for a node, inserting the same content again returns the same id
    and changes nothing. *)
Theorem insert_node_twice n m r m' :
  insert_node n m = Ok r m' -> r <> 0 ->
  insert_node n m' = Ok r m'.
Proof.
  intros H Hr.
  assert (Hit : forall e, table_find n (m_node_table m') = Some e -> m_index e = r ->
                          insert_node n m' = Ok r m').
  { intros e He Hi. unfold insert_node, insert_if_not_there2. rewrite He, Hi.
    destruct (Nat.eqb_spec r 0); [contradiction|]. cbn [negb].
    rewrite with_node_table_idem. reflexivity. }
  unfold insert_node in H.
  destruct (insert_if_not_there2 n (m_node_table m)) as [e t] eqn:Ei.
  destruct (insert_if_not_there2_spec _ _ _ _ Ei) as [Hc Hf].
  destruct (m_index e =? 0) eqn:E0; cbn [negb] in H.
  - set (m1 := with_node_table (table_insert (set_refcount 0 e) t) m) in H.
    assert (Tail : forall e2 m2,
      same_content n e2 = true ->
      (if (match m_free_nodes m1 with [] => true | _ :: _ => false end)
          && (m_max_num_pdd_nodes m2 <? N.of_nat (length (m_nodes m2)))%N
       then Err mem_out m2
       else
         let m3 := if match m_free_nodes m1 with [] => true | _ :: _ => false end
                   then alloc_free_nodes (length (m_nodes m2) / 2) m2 else m2 in
         match last (m_free_nodes m3) with
         | None => Err undefined m3
         | Some result =>
             let e3 := set_index result e2 in
             Ok result
               (with_is_new_node true
                  (with_nodes (<[result := e3]> (m_nodes m3))
                     (with_node_table (table_insert e3 (m_node_table m3))
                        (with_free_nodes (removelast (m_free_nodes m3)) m3))))
         end) = Ok r m' ->
      insert_node n m' = Ok r m').
    { clear H. intros e2 m2 Hc2. destruct (_ && _); [intros HH; discriminate HH|]. cbv zeta.
      destruct (last _) as [result|]; [|intros HH; discriminate HH].
      intros [= <- <-]. apply (Hit (set_index result e2)); [|reflexivity].
      cbn [m_node_table with_is_new_node with_nodes with_node_table].
      apply table_find_insert. exact Hc2. }
    destruct ((match m_free_nodes m1 with [] => true | _ :: _ => false end)
              && negb (m_disable_gc m1)).
    + destruct (insert_if_not_there2 n (m_node_table (gc m1))) as [e' t'] eqn:Eg.
      destruct (insert_if_not_there2_spec _ _ _ _ Eg) as [Hc' _].
      apply (Tail (set_refcount 0 e')
               (with_node_table (table_insert (set_refcount 0 e') t') (gc m1))); auto.
    + apply (Tail (set_refcount 0 e) m1); auto.
  - injection H as <- <-. apply (Hit e); [exact Hf|reflexivity].
Qed.

Lemma gc_frees_only_unreferenced_witness :
  In 3 (m_free_nodes (gc dead_powers_state)) /\
  m_refcount (node dead_powers_state 3) = 0 /\
  ~ In 3 (m_pdd_stack dead_powers_state) /\ 2 <= 3.
Proof.
  assert (H : In 3 (m_free_nodes (gc dead_powers_state))).
  { vm_compute. auto 10. }
  split; [exact H|]. exact (gc_frees_only_unreferenced dead_powers_state 3 H).
Defined.

Lemma gc_keeps_stack_entries_witness :
  (is_val pushed_state zero_pdd = true /\ is_val pushed_state one_pdd = true /\
   In 9 (m_pdd_stack pushed_state) /\ 9 < length (m_nodes pushed_state)) /\
  to_monomials 8 (gc pushed_state) 9 = to_monomials 8 pushed_state 9.
Proof.
  assert (H0 : is_val pushed_state zero_pdd = true) by (vm_compute; reflexivity).
  assert (H1 : is_val pushed_state one_pdd = true) by (vm_compute; reflexivity).
  assert (H2 : In 9 (m_pdd_stack pushed_state)) by (vm_compute; auto).
  assert (H3 : 9 < length (m_nodes pushed_state)) by (vm_compute; lia).
  split; [exact (conj H0 (conj H1 (conj H2 H3)))|].
  exact (gc_keeps_stack_entries 8 pushed_state 9 H0 H1 H2 H3).
Defined.

Lemma imk_val_mod2_witness :
  m_mod2_semantics c10_state = true /\
  (imk_val (Rat.of_Z 5) c10_state = Ok zero_pdd c10_state \/
   imk_val (Rat.of_Z 5) c10_state = Ok one_pdd c10_state).
Proof.
  assert (H : m_mod2_semantics c10_state = true) by (vm_compute; reflexivity).
  split; [exact H|]. exact (imk_val_mod2 (Rat.of_Z 5) c10_state H).
Defined.

Lemma insert_node_twice_witness :
  (insert_node (pdd_node3 0 1 1) fresh_state = Ok 6 after_insert /\ 6 <> 0) /\
  insert_node (pdd_node3 0 1 1) after_insert = Ok 6 after_insert.
Proof.
  assert (H : insert_node (pdd_node3 0 1 1) fresh_state = Ok 6 after_insert)
    by (vm_compute; reflexivity).
  assert (H6 : 6 <> 0) by lia.
  split; [exact (conj H H6)|]. exact (insert_node_twice _ _ _ _ H H6).
Defined.

(** ** Reordering *)

Lemma set_level2var_fold l (Hnd : NoDup l) (Hlt : forall v, In v l -> v < length l) :
  forall c k v2l l2v,
  k + c = length l -> length v2l = length l -> length l2v = length l ->
  let maps := fold_left (set_level2var_step l) (seq k c) (v2l, l2v) in
  length (fst maps) = length l /\ length (snd maps) = length l /\
  (forall i, i < k -> snd maps !! i = l2v !! i) /\
  (forall i, k <= i -> snd maps !! i = l !! i) /\
  (forall i v, k <= i -> l !! i = Some v -> fst maps !! v = Some i) /\
  (forall v, (forall i, k <= i -> l !! i <> Some v) -> fst maps !! v = v2l !! v).
Proof.
  induction c as [|c IH]; intros k v2l l2v Hk Hv Hl; cbn [seq fold_left].
  - cbn [fst snd]. refine (conj _ (conj _ (conj _ (conj _ (conj _ _))))).
    + exact Hv.
    + exact Hl.
    + reflexivity.
    + intros i Hi. rewrite !lookup_ge_None_2 by lia. reflexivity.
    + intros i v Hi E. apply lookup_lt_Some in E. lia.
    + reflexivity.
  - destruct (lookup_lt_is_Some_2 l k ltac:(lia)) as [v Ev].
    assert (Hvl : v < length l).
    { apply Hlt. apply list_elem_of_In. eapply list_elem_of_lookup_2; eauto. }
    assert (Es : set_level2var_step l (v2l, l2v) k = (<[v := k]> v2l, <[k := v]> l2v))
      by (unfold set_level2var_step; rewrite Ev; reflexivity).
    rewrite Es.
    destruct (IH (S k) (<[v := k]> v2l) (<[k := v]> l2v)) as (A & B & C & D & E & F);
      [lia|rewrite length_insert; auto|rewrite length_insert; auto|].
    cbv zeta in *. refine (conj _ (conj _ (conj _ (conj _ (conj _ _))))).
    + exact A.
    + exact B.
    + intros i Hi. rewrite C by lia. apply list_lookup_insert_ne. lia.
    + intros i Hi. destruct (Nat.eq_dec i k) as [->|Hne].
      * rewrite C by lia. rewrite list_lookup_insert_eq by lia. auto.
      * apply D. lia.
    + intros i w Hi Ew. destruct (Nat.eq_dec i k) as [->|Hne].
      * assert (w = v) by congruence. subst w.
        rewrite F.
        -- apply list_lookup_insert_eq. lia.
        -- intros j Hj Ej. pose proof (NoDup_lookup _ _ _ _ Hnd Ev Ej). lia.
      * apply E; auto. lia.
    + intros w Hw. rewrite F.
      * apply list_lookup_insert_ne. intros ->. apply (Hw k); auto.
      * intros j Hj. apply Hw. lia.
Qed.

(** X12: given a permutation of the levels, [set_level2var] stores it as
    [m_level2var] and makes [m_var2level] its inverse; the node store is not
    touched. *)
Theorem set_level2var_inverse l m :
  length (m_var2level m) = length l -> length (m_level2var m) = length l ->
  NoDup l -> (forall v, In v l -> v < length l) ->
  m_level2var (state_of (set_level2var l m)) = l /\
  (forall i v, l !! i = Some v ->
     m_var2level (state_of (set_level2var l m)) !! v = Some i) /\
  m_nodes (state_of (set_level2var l m)) = m_nodes m.
Proof.
  intros Hv Hl Hnd Hlt.
  destruct (set_level2var_fold l Hnd Hlt (length l) 0 (m_var2level m) (m_level2var m))
    as (A & B & C & D & E & F); auto.
  unfold set_level2var, modify. cbn [state_of m_level2var m_var2level m_nodes with_vars].
  cbv zeta in *. refine (conj _ (conj _ _)).
  - apply list_eq. intros i. apply D. lia.
  - intros i v Ei. eapply E; eauto. lia.
  - reflexivity.
Qed.

Lemma set_level2var_inverse_witness :
  (length (m_var2level (state_of (pdd_manager_with 2 4 empty_manager))) = length [1; 0; 2; 3] /\
   length (m_level2var (state_of (pdd_manager_with 2 4 empty_manager))) = length [1; 0; 2; 3] /\
   NoDup [1; 0; 2; 3] /\ (forall v, In v [1; 0; 2; 3] -> v < length [1; 0; 2; 3])) /\
  m_level2var (state_of (set_level2var [1; 0; 2; 3]
                           (state_of (pdd_manager_with 2 4 empty_manager)))) = [1; 0; 2; 3].
Proof.
  assert (H1 : length (m_var2level (state_of (pdd_manager_with 2 4 empty_manager)))
               = length [1; 0; 2; 3]) by (vm_compute; reflexivity).
  assert (H2 : length (m_level2var (state_of (pdd_manager_with 2 4 empty_manager)))
               = length [1; 0; 2; 3]) by (vm_compute; reflexivity).
  assert (H3 : NoDup [1; 0; 2; 3]).
  { apply (bool_decide_unpack _). vm_compute. exact I. }
  assert (H4 : forall v, In v [1; 0; 2; 3] -> v < length [1; 0; 2; 3]).
  { simpl. intros v Hv. intuition lia. }
  split; [auto|].
  exact (proj1 (set_level2var_inverse [1; 0; 2; 3] _ H1 H2 H3 H4)).
Defined.

(** ** Variables that exist already *)

(** X13: [mk_var(i)] for a variable the manager already has allocates
    nothing: it returns [m_var2pdd[i]] and only counts a reference. *)
Theorem mk_var_existing i m :
  i < length (m_var2level m) ->
  reserve_var i m = Ok tt m /\
  mk_var i m = mk_pdd (default 0 (m_var2pdd m !! i)) m.
Proof.
  intros H.
  assert (E : reserve_var i m = Ok tt m).
  { unfold reserve_var. replace (S i - length (m_var2level m)) with 0 by lia. reflexivity. }
  split; [exact E|].
  unfold mk_var, bind. rewrite E. reflexivity.
Qed.

Lemma mk_var_existing_witness :
  3 < length (m_var2level fresh_state) /\
  reserve_var 3 fresh_state = Ok tt fresh_state /\
  mk_var 3 fresh_state = mk_pdd (default 0 (m_var2pdd fresh_state !! 3)) fresh_state.
Proof.
  assert (H : 3 < length (m_var2level fresh_state)) by (vm_compute; lia).
  split; [exact H|]. exact (mk_var_existing 3 fresh_state H).
Defined.

(** ** Growth of the pool, in closed form *)

(** X14: [alloc_free_nodes(n)] appends [n] empty slots, each carrying its own
    position as index, keeps the existing nodes, and leaves the free list as
    the reverse of the old one followed by the new positions. *)
Theorem alloc_free_nodes_closed_form n m :
  m_nodes (alloc_free_nodes n m)
    = m_nodes m ++ map (fun i => mk_node 0 0 0 0 i) (seq (length (m_nodes m)) n) /\
  m_free_nodes (alloc_free_nodes n m)
    = rev (seq (length (m_nodes m)) n) ++ rev (m_free_nodes m).
Proof.
  unfold alloc_free_nodes. rewrite alloc_free_nodes_loop_closed.
  cbn [m_nodes m_free_nodes with_free_nodes with_nodes]. rewrite rev_app_distr. auto.
Qed.

(** ** Monomials *)

(** X15: [to_monomials] never lists a monomial with the coefficient 0. *)
Theorem to_monomials_nonzero fuel m : forall p mons,
  to_monomials fuel m p = Some mons ->
  Forall (fun c => Rat.is_zero (fst c) = false) mons.
Proof.
  induction fuel as [|f IH]; intros p mons H; [discriminate|].
  cbn [to_monomials] in H. destruct (is_val m p).
  - injection H as <-. destruct (Rat.is_zero (val m p)) eqn:E; cbn [negb].
    + constructor.
    + repeat constructor. exact E.
  - destruct (to_monomials f m (hi m p)) as [mh|] eqn:Eh; [|discriminate].
    destruct (to_monomials f m (lo m p)) as [ml|] eqn:El; [|discriminate].
    injection H as <-. apply Forall_app. split; [|eauto].
    apply Forall_map. eapply Forall_impl; [eapply IH; eauto|]. auto.
Qed.

Lemma to_monomials_nonzero_witness :
  to_monomials 8 c4_state 9 = Some [(1%Q, [0; 0]); (2%Q, [0]); (1%Q, [])] /\
  Forall (fun c => Rat.is_zero (fst c) = false) [(1%Q, [0; 0]); (2%Q, [0]); (1%Q, [])].
Proof.
  assert (H : to_monomials 8 c4_state 9 = Some [(1%Q, [0; 0]); (2%Q, [0]); (1%Q, [])])
    by (vm_compute; reflexivity).
  split; [exact H|]. exact (to_monomials_nonzero 8 c4_state 9 _ H).
Defined.

(** ** Reduction by a constant *)

(** X16: in every manager in which [b] is a value node and node 0 holds the
    value 0, the loop of [reduce_on_match] started on the dividend 0 never
    leaves: for every amount of fuel it runs out of fuel, with the manager
    unchanged. *)
Theorem reduce_on_match_loops_on_constant f m b :
  is_val m b = true -> is_val m zero_pdd = true -> val m zero_pdd = 0%Q ->
  reduce_on_match f zero_pdd b m = Err out_of_fuel m.
Proof. apply reduce_on_match_zero_diverges. Qed.

Lemma reduce_on_match_loops_on_constant_witness :
  (is_val fresh_state 1 = true /\ is_val fresh_state zero_pdd = true /\
   val fresh_state zero_pdd = 0%Q) /\
  reduce_on_match 100 zero_pdd 1 fresh_state = Err out_of_fuel fresh_state.
Proof.
  assert (H1 : is_val fresh_state 1 = true) by (vm_compute; reflexivity).
  assert (H0 : is_val fresh_state zero_pdd = true) by (vm_compute; reflexivity).
  assert (Hv : val fresh_state zero_pdd = 0%Q) by (vm_compute; reflexivity).
  split; [exact (conj H1 (conj H0 Hv))|].
  exact (reduce_on_match_loops_on_constant 100 fresh_state 1 H1 H0 Hv).
Defined.

(** ** The constructor and the variable nodes *)

Lemma in_table_insert e x t : In e (table_insert x t) -> e = x \/ In e t.
Proof.
  induction t as [|y t IH]; simpl; [intuition|].
  destruct (same_content x y); simpl; intuition.
Qed.

Lemma table_find_None n t :
  (forall e, In e t -> same_content n e = false) -> table_find n t = None.
Proof.
  induction t as [|y t IH]; intros H; simpl; [reflexivity|].
  rewrite (H y) by (left; reflexivity). apply IH. intros e He. apply H. right; exact He.
Qed.

Lemma insert_node_fresh n m fl x :
  m_index n = 0 ->
  table_find n (m_node_table m) = None ->
  m_free_nodes m = fl ++ [x] ->
  exists m', insert_node n m = Ok x m' /\
    m_nodes m' = <[x := mk_node 0 (m_level n) (m_lo n) (m_hi n) x]> (m_nodes m) /\
    m_free_nodes m' = fl /\
    same_vars m m' /\
    (forall e, In e (m_node_table m') -> same_content n e = true \/ In e (m_node_table m)).
Proof.
  intros Hi Hf Hfree.
  assert (Hne : match fl ++ [x] with [] => true | _ :: _ => false end = false)
    by (destruct fl; reflexivity).
  unfold insert_node, insert_if_not_there2. rewrite Hf, Hi.
  cbn [negb Nat.eqb m_free_nodes with_node_table]. rewrite Hfree, Hne.
  cbn [andb].
  cbn [m_free_nodes with_node_table m_nodes m_node_table]. rewrite Hfree.
  rewrite last_snoc, removelast_last.
  eexists. split; [reflexivity|].
  cbn [m_nodes m_free_nodes m_node_table with_is_new_node with_nodes with_node_table
       with_free_nodes]. split; [reflexivity|]. split; [reflexivity|].
  split; [repeat split|].
  intros e He.
  apply in_table_insert in He as [->|He]; [left; destruct n; unfold same_content; simpl; rewrite !Nat.eqb_refl; reflexivity|].
  apply in_table_insert in He as [->|He]; [left; destruct n; unfold same_content; simpl; rewrite !Nat.eqb_refl; reflexivity|].
  apply in_table_insert in He as [->|He]; [left; destruct n; unfold same_content; simpl; rewrite !Nat.eqb_refl; reflexivity|right; exact He].
Qed.

Lemma seq_snoc_lookup a v : (seq a v ++ [a + v]) !! v = Some (a + v).
Proof.
  rewrite lookup_app_r by (rewrite length_seq; lia).
  rewrite length_seq, Nat.sub_diag. reflexivity.
Qed.

Lemma reserve_var_step m v c :
  var_inv m v (S c) ->
  exists m', reserve_var v m = Ok tt m' /\ var_inv m' (S v) c.
Proof.
  intros [H2l Hl2 H2p Hfree Hsize Hnodes Htable].
  unfold reserve_var. rewrite H2l, length_seq.
  replace (S v - v) with 1 by lia.
  cbn [reserve_var_loop]. rewrite H2l, length_seq, Nat.leb_refl.
  unfold bind at 1. unfold make_node, bind at 1, modify at 1.
  change (is_zero one_pdd) with false. cbn iota.
  destruct (insert_node_fresh (pdd_node3 v zero_pdd one_pdd) (with_is_new_node false m)
              (rev (seq (3 + v) c)) (2 + v))
    as (m1 & E & Hn & Hfl & (Hv1 & Hv2 & Hv3 & _ & _) & Ht).
  { reflexivity. }
  { apply table_find_None. intros e He.
    destruct (same_content _ e) eqn:Es; [|reflexivity].
    unfold same_content, pdd_node3, zero_pdd, one_pdd in Es.
      cbn [m_level m_lo m_hi] in Es.
    apply andb_prop in Es as [Es E3]. apply andb_prop in Es as [E1 E2].
    apply Nat.eqb_eq in E1, E2, E3.
    specialize (Htable e He (eq_sym E2) (eq_sym E3)). lia. }
  { cbn [m_free_nodes with_is_new_node]. rewrite Hfree. reflexivity. }
  rewrite E. cbn [m_nodes m_free_nodes m_node_table with_is_new_node
                  m_var2pdd m_var2level m_level2var] in Hn, Hfl, Hv1, Hv2, Hv3, Ht.
  unfold bind, modify, pin, ret.
  cbn [m_var2pdd m_var2level m_level2var m_nodes with_vars with_nodes].
  rewrite Hv1, Hv2, Hv3, H2p, H2l, Hl2.
  rewrite (seq_snoc_lookup 2 v). cbn [default from_option]. unfold id.
  eexists. split; [reflexivity|].
  assert (Hlen : 2 + v < length (m_nodes m)) by lia.
  constructor;
    cbn [m_var2pdd m_var2level m_level2var m_nodes m_free_nodes m_node_table
         with_vars with_nodes].
  - rewrite seq_S. reflexivity.
  - rewrite seq_S. reflexivity.
  - rewrite seq_S. reflexivity.
  - exact Hfl.
  - rewrite length_insert, Hn, length_insert. lia.
  - intros v' Hv'. destruct (Nat.eq_dec v' v) as [->|Hne].
    + rewrite list_lookup_insert_eq by (rewrite Hn, length_insert; exact Hlen).
      unfold node. cbn [m_nodes with_vars]. rewrite Hn.
      rewrite list_lookup_insert_eq by exact Hlen. reflexivity.
    + rewrite list_lookup_insert_ne by lia. rewrite Hn.
      rewrite list_lookup_insert_ne by lia.
      apply Hnodes. lia.
  - intros e He Hlo Hhi.
    destruct (Ht e He) as [Es|Hin].
    + unfold same_content, pdd_node3, zero_pdd, one_pdd in Es.
      cbn [m_level m_lo m_hi] in Es.
      apply andb_prop in Es as [Es _]. apply andb_prop in Es as [E1 _].
      apply Nat.eqb_eq in E1. lia.
    + specialize (Htable e Hin Hlo Hhi). lia.
Qed.

Lemma reserve_vars_steps k : forall m v c,
  var_inv m v (k + c) ->
  exists m', reserve_vars k v m = Ok tt m' /\ var_inv m' (v + k) c.
Proof.
  induction k as [|k IH]; intros m v c Hinv.
  - exists m. split; [reflexivity|]. rewrite Nat.add_0_r. exact Hinv.
  - destruct (reserve_var_step m v (k + c) Hinv) as (m1 & E1 & H1).
    destruct (IH m1 (S v) c H1) as (m2 & E2 & H2).
    exists m2. split.
    + cbn [reserve_vars]. unfold bind. rewrite E1. exact E2.
    + replace (v + S k) with (S v + k) by lia. exact H2.
Qed.

Lemma init_value_fresh r m fl x :
  m_free_values m = [] ->
  table_find (pdd_node1 (length (m_values m))) (m_node_table m) = None ->
  m_free_nodes m = fl ++ [x] ->
  exists info m', init_value r m = Ok info m' /\
    m_nodes m' = <[x := mk_node 0 0 (length (m_values m)) 0 x]> (m_nodes m) /\
    m_free_nodes m' = fl /\
    m_var2pdd m' = m_var2pdd m /\ m_var2level m' = m_var2level m /\
    m_level2var m' = m_level2var m /\
    m_values m' = m_values m ++ [r] /\
    m_free_values m' = [] /\
    (forall e, In e (m_node_table m') ->
       same_content (pdd_node1 (length (m_values m))) e = true \/ In e (m_node_table m)).
Proof.
  intros Hfv Hf Hfree. unfold init_value. rewrite Hfv. cbn [last].
  destruct (insert_node_fresh (pdd_node1 (length (m_values m)))
              (with_freeze_value r (with_values (m_values m ++ [r]) m)) fl x)
    as (m1 & E & Hn & Hfl & (Hv1 & Hv2 & Hv3 & Hv4 & Hv5) & Ht);
    [reflexivity | exact Hf | exact Hfree |].
  rewrite E. eexists _, _. split; [reflexivity|].
  cbn [m_nodes m_free_nodes m_node_table m_values m_free_values with_mpq_table
       m_var2pdd m_var2level m_level2var with_freeze_value with_values]
    in Hn, Hfl, Hv1, Hv2, Hv3, Hv4, Hv5, Ht |- *.
  rewrite Hv5, Hv4. auto 10.
Qed.

Lemma add_dummies k : forall m,
  exists m', repeat_M k add_dummy m = Ok tt m' /\
    (exists l, m_nodes m' = m_nodes m ++ l) /\
    m_free_nodes m' = m_free_nodes m /\
    m_node_table m' = m_node_table m /\
    same_vars m m'.
Proof.
  induction k as [|k IH]; intros m.
  - exists m. split; [reflexivity|]. split; [exists []; symmetry; apply app_nil_r|].
    repeat split.
  - cbn [repeat_M]. unfold bind at 1, add_dummy at 1, modify.
    destruct (IH (with_nodes (m_nodes m ++ [mk_node max_rc 0 0 0 (length (m_nodes m))]) m))
      as (m' & E & (l & Hl) & Hf & Ht & Hv).
    exists m'. split; [exact E|].
    cbn [m_nodes m_free_nodes m_node_table with_nodes] in Hl, Hf, Ht.
    split; [eexists; rewrite Hl, <- app_assoc; reflexivity|].
    split; [exact Hf|]. split; [exact Ht|]. exact Hv.
Qed.

(** X17: the constructor, called with at least two preallocated slots (1024
    in the source), returns without collecting or growing the pool, maps
    variable [v] to level [v] and back, and gives each of the [n] variables
    the pinned node [2 + v] with level [v], lo 0 and hi 1; the free list
    holds the untouched slots above them. *)
Theorem constructor_variable_nodes prealloc n :
  2 <= prealloc ->
  exists m, pdd_manager_with prealloc n empty_manager = Ok tt m /\
    m_var2level m = seq 0 n /\ m_level2var m = seq 0 n /\
    m_free_nodes m = rev (seq (2 + n) (prealloc - 2)) /\
    forall v, v < n ->
      m_var2pdd m !! v = Some (2 + v) /\
      node m (2 + v) = mk_node max_rc v zero_pdd one_pdd (2 + v).
Proof.
  intros Hpre. unfold pdd_manager_with.
  replace (prealloc + n) with (S (S (n + (prealloc - 2)))) by lia.
  set (c := n + (prealloc - 2)).
  do 5 (unfold bind at 1, modify at 1).
  set (mA := set_mod2_semantics false _).
  assert (HA : m_free_nodes mA = (rev (seq 2 c) ++ [1]) ++ [0] /\
               length (m_nodes mA) = S (S c) /\
               m_node_table mA = [] /\ m_values mA = [] /\ m_free_values mA = [] /\
               m_var2pdd mA = [] /\ m_var2level mA = [] /\ m_level2var mA = []).
  { unfold mA, alloc_free_nodes. rewrite alloc_free_nodes_loop_closed.
    cbn [m_nodes m_free_nodes m_node_table m_values m_free_values m_var2pdd m_var2level
         m_level2var set_mod2_semantics with_is_new_node with_disable_gc with_free_nodes
         with_nodes with_max_num_nodes empty_manager length app].
    rewrite length_map, length_seq. repeat split. }
  destruct HA as (HAf & HAn & HAt & HAv & HAfv & HA1 & HA2 & HA3).
  destruct (init_value_fresh Rat.zero mA (rev (seq 2 c) ++ [1]) 0)
    as (i0 & m1 & E1 & Hn1 & Hf1 & H11 & H12 & H13 & Hv1 & Hfv1 & Ht1);
    [exact HAfv | rewrite HAt; reflexivity | exact HAf |].
  unfold bind at 1. rewrite E1.
  rewrite HAv in Hn1, Hv1, Ht1. rewrite HAt in Ht1. cbn [length app] in Hn1, Hv1, Ht1.
  destruct (init_value_fresh Rat.one m1 (rev (seq 2 c)) 1)
    as (i1 & m2 & E2 & Hn2 & Hf2 & H21 & H22 & H23 & Hv2 & Hfv2 & Ht2);
    [exact Hfv1 | | exact Hf1 |].
  { rewrite Hv1. apply table_find_None. intros e He.
    destruct (Ht1 e He) as [Es|[]].
    unfold same_content, pdd_node1 in Es |- *. cbn [m_level m_lo m_hi length] in Es |- *.
    apply andb_prop in Es as [Es _]. apply andb_prop in Es as [_ Es].
    apply Nat.eqb_eq in Es. rewrite <- Es. change (1 =? 0) with false.
    rewrite andb_false_r. reflexivity. }
  unfold bind at 1. rewrite E2.
  rewrite Hv1 in Hn2, Ht2. cbn [length] in Hn2, Ht2.
  unfold bind at 1, pin at 1, modify at 1. unfold bind at 1, pin at 1, modify at 1.
  set (m3 := with_nodes _ (with_nodes _ m2)).
  destruct (add_dummies (pdd_no_op + 1) m3)
    as (m4 & E4 & (l & Hn4) & Hf4 & Ht4 & (H41 & H42 & H43 & _ & _)).
  unfold bind at 1. rewrite E4.
  assert (Hinv : var_inv m4 0 c).
  { constructor.
    - rewrite H42. unfold m3. cbn [m_var2level with_nodes seq]. congruence.
    - rewrite H43. unfold m3. cbn [m_level2var with_nodes seq]. congruence.
    - rewrite H41. unfold m3. cbn [m_var2pdd with_nodes seq]. congruence.
    - rewrite Hf4. unfold m3. cbn [m_free_nodes with_nodes]. exact Hf2.
    - rewrite Hn4, length_app. unfold m3. cbn [m_nodes with_nodes].
      rewrite !length_insert, Hn2, length_insert, Hn1, length_insert, HAn. lia.
    - intros v' Hv'. lia.
    - intros e He Hlo Hhi. rewrite Ht4 in He. unfold m3 in He.
      cbn [m_node_table with_nodes] in He.
      assert (Hz : m_hi e = 0); [|lia].
      destruct (Ht2 e He) as [Es|He1]; [|destruct (Ht1 e He1) as [Es|[]]];
        unfold same_content, pdd_node1 in Es; cbn [m_level m_lo m_hi] in Es;
        apply andb_prop in Es as [_ Es]; apply Nat.eqb_eq in Es; symmetry; exact Es. }
  destruct (reserve_vars_steps n m4 0 (prealloc - 2) Hinv) as (m5 & E5 & H5).
  exists m5. split; [exact E5|]. cbn [Nat.add] in H5.
  destruct H5 as [H2l Hl2 H2p Hfree Hsize Hnodes Htable].
  split; [exact H2l|]. split; [exact Hl2|]. split; [exact Hfree|].
  intros v Hv. split.
  - rewrite H2p. apply lookup_seq_lt. exact Hv.
  - unfold node. rewrite (Hnodes v Hv). reflexivity.
Qed.

Lemma constructor_variable_nodes_witness :
  2 <= 6 /\
  exists m, pdd_manager_with 6 2 empty_manager = Ok tt m /\
    m_var2level m = seq 0 2 /\ m_level2var m = seq 0 2 /\
    m_free_nodes m = rev (seq (2 + 2) (6 - 2)) /\
    forall v, v < 2 ->
      m_var2pdd m !! v = Some (2 + v) /\
      node m (2 + v) = mk_node max_rc v zero_pdd one_pdd (2 + v).
Proof. split; [lia | apply (constructor_variable_nodes 6 2); lia]. Defined.

(** ** The leading monomials in [common_factors] *)

Lemma spine_vars_spine f m : forall x acc r e,
  spine_vars f m x acc = Some (r, e) -> exists s, r = acc ++ s /\ spine m x s e.
Proof.
  induction f as [|f IH]; intros x acc r e H; [discriminate|].
  cbn [spine_vars] in H. destruct (is_val m x) eqn:E.
  - injection H as <- <-. exists []. split; [symmetry; apply app_nil_r | constructor; exact E].
  - destruct (IH _ _ _ _ H) as (s & -> & Hs).
    exists (var m x :: s). split; [rewrite <- app_assoc; reflexivity|].
    constructor; assumption.
Qed.

Lemma common_factors_loop_split f m pc0 qc0 : forall x y hc p q c,
  common_factors_loop f m x y hc p q pc0 qc0 = Some c ->
  cf_found c = true ->
  exists common sx ex sy ey,
    spine m x sx ex /\ spine m y sy ey /\
    (hc = false -> common <> []) /\
    Permutation (p ++ sx) (common ++ cf_p c) /\
    Permutation (q ++ sy) (common ++ cf_q c).
Proof.
  induction f as [|f IH]; intros x y hc p q c H Hfound; [discriminate|].
  cbn [common_factors_loop] in H.
  destruct (is_val m x || is_val m y) eqn:Ev.
  - destruct hc; cbn [negb] in H; [|injection H as <-; discriminate Hfound].
    destruct (spine_vars (S f) m y q) as [[q' y']|] eqn:Ey; [|discriminate].
    destruct (spine_vars (S f) m x p) as [[p' x']|] eqn:Ex; [|discriminate].
    destruct (spine_vars_spine _ _ _ _ _ _ Ex) as (sx & -> & Hsx).
    destruct (spine_vars_spine _ _ _ _ _ _ Ey) as (sy & -> & Hsy).
    exists [], sx, x', sy, y'.
    assert (Hc : cf_p c = p ++ sx /\ cf_q c = q ++ sy).
    { destruct (negb (m_mod2_semantics m) && _ && _); injection H as <-; split; reflexivity. }
    destruct Hc as [-> ->].
    split; [exact Hsx|]. split; [exact Hsy|]. split; [discriminate|].
    split; reflexivity.
  - apply orb_false_elim in Ev as [Evx Evy].
    destruct (level m x =? level m y) eqn:El.
    + apply Nat.eqb_eq in El.
      destruct (IH _ _ _ _ _ _ H Hfound) as (cm & sx & ex & sy & ey & Hx & Hy & _ & Px & Py).
      exists (var m x :: cm), (var m x :: sx), ex, (var m y :: sy), ey.
      split; [constructor; assumption|]. split; [constructor; assumption|].
      split; [discriminate|]. split.
      * rewrite <- Permutation_middle. cbn [app]. constructor. exact Px.
      * rewrite <- Permutation_middle. cbn [app].
        replace (var m y) with (var m x) by (unfold var; rewrite El; reflexivity).
        constructor. exact Py.
    + destruct (level m y <? level m x).
      * destruct (IH _ _ _ _ _ _ H Hfound)
          as (cm & sx & ex & sy & ey & Hx & Hy & Hc & Px & Py).
        exists cm, (var m x :: sx), ex, sy, ey.
        split; [constructor; assumption|]. split; [exact Hy|]. split; [exact Hc|].
        split; [|exact Py]. rewrite <- app_assoc in Px. exact Px.
      * destruct (IH _ _ _ _ _ _ H Hfound)
          as (cm & sx & ex & sy & ey & Hx & Hy & Hc & Px & Py).
        exists cm, sx, ex, (var m y :: sy), ey.
        split; [exact Hx|]. split; [constructor; assumption|]. split; [exact Hc|].
        split; [exact Px|]. rewrite <- app_assoc in Py. exact Py.
Qed.

(** X18: when [common_factors] answers true, the leading monomials of [a]
    and [b] share a non-empty list of variables, and [p] and [q] are what is
    left of each leading monomial once that common part is taken out. *)
Theorem common_factors_splits_leading_monomials fuel m a b pc0 qc0 c :
  common_factors fuel m a b pc0 qc0 = Some c ->
  cf_found c = true ->
  exists common sa ea sb eb,
    spine m a sa ea /\ spine m b sb eb /\ common <> [] /\
    Permutation sa (common ++ cf_p c) /\
    Permutation sb (common ++ cf_q c).
Proof.
  intros H Hfound.
  destruct (common_factors_loop_split _ _ _ _ _ _ _ _ _ _ H Hfound)
    as (cm & sx & ex & sy & ey & Hx & Hy & Hc & Px & Py).
  exists cm, sx, ex, sy, ey. auto 10.
Qed.

Lemma common_factors_splits_leading_monomials_witness :
  common_factors 64 spoly_state 7 9 0%Q 0%Q = Some (mk_factors true [1] [0] 1%Q 1%Q) /\
  exists common sa ea sb eb,
    spine spoly_state 7 sa ea /\ spine spoly_state 9 sb eb /\ common <> [] /\
    Permutation sa (common ++ [1]) /\
    Permutation sb (common ++ [0]).
Proof.
  assert (H : common_factors 64 spoly_state 7 9 0%Q 0%Q
              = Some (mk_factors true [1] [0] 1%Q 1%Q)) by (vm_compute; reflexivity).
  split; [exact H|].
  exact (common_factors_splits_leading_monomials 64 spoly_state 7 9 0%Q 0%Q _ H eq_refl).
Defined.
